(** * PGN file gateway: classification, caching and retrieval

    A shallow embedding of the Express application that proxies chess
    game files (PGN) stored in Cloudinary: the classification and sorting
    of the search results, the in-memory cache in front of the search, and
    the handlers of /api/pgn-files, /api/clear-cache and /api/prefetch.

    JavaScript strings are modelled as [string]. The code only inspects
    the characters '/', ',', '_', letters and digits, all of them ASCII,
    so the byte-wise reading and the UTF-16 reading of a string agree on
    every test made here. An instant is a [Z], in milliseconds, as
    [Date.now()] gives it. *)

From Stdlib Require Import ZArith Lia Bool List Ascii String Sorting.Sorted
  Sorting.Permutation.
From stdpp Require Import gmap strings fin_maps.

Import ListNotations.
Local Open Scope string_scope.
Local Open Scope list_scope.
Local Open Scope Z_scope.

(** ** JavaScript numbers

    The numbers that occur in the comparators are non-negative integers
    read by [parseInt], their differences, the infinities and NaN. A finite
    value is kept as the integer it denotes; [to_number] rounds an integer
    to the nearest binary64 value, ties to even, as the conversion of a
    mathematical value to the Number type does. *)

Inductive number : Type :=
| Fin (z : Z)
| PosInf
| NegInf
| NaN.

Definition round_half_even (n e : Z) : Z :=
  let q := n / 2 ^ e in
  let r := n mod 2 ^ e in
  let h := 2 ^ (e - 1) in
  if r <? h then q * 2 ^ e
  else if h <? r then (q + 1) * 2 ^ e
  else if Z.even q then q * 2 ^ e else (q + 1) * 2 ^ e.

(** Nearest binary64 value of a non-negative integer: 53 bits of
    significand, overflow to Infinity from 2^1024 on. *)
Definition round_magnitude (n : Z) : option Z :=
  if n <? 2 ^ 53 then Some n
  else
    let r := round_half_even n (Z.log2 n - 52) in
    if r <? 2 ^ 1024 then Some r else None.

Definition to_number (n : Z) : number :=
  if 0 <=? n then
    match round_magnitude n with Some m => Fin m | None => PosInf end
  else
    match round_magnitude (- n) with Some m => Fin (- m) | None => NegInf end.

(** [a - b] on numbers. *)
Definition number_sub (a b : number) : number :=
  match a, b with
  | NaN, _ | _, NaN => NaN
  | Fin x, Fin y => to_number (x - y)
  | Fin _, PosInf => NegInf
  | Fin _, NegInf => PosInf
  | PosInf, PosInf => NaN
  | PosInf, _ => PosInf
  | NegInf, NegInf => NaN
  | NegInf, _ => NegInf
  end.

(** [x || 0] on numbers: 0 and NaN are the falsy numbers. *)
Definition or_zero (x : number) : number :=
  match x with
  | NaN => Fin 0
  | Fin 0 => Fin 0
  | _ => x
  end.

(** [v > 0] as the sort reads the result of a comparator; a comparator
    that returns NaN counts as +0. *)
Definition is_positive (v : number) : bool :=
  match v with
  | Fin z => 0 <? z
  | PosInf => true
  | _ => false
  end.

(** ** Strings *)

Definition is_digit (c : ascii) : bool :=
  let n := nat_of_ascii c in
  (48 <=? n)%nat && (n <=? 57)%nat.

Definition is_word_char (c : ascii) : bool :=
  let n := nat_of_ascii c in
  ((97 <=? n)%nat && (n <=? 122)%nat)
  || ((65 <=? n)%nat && (n <=? 90)%nat)
  || is_digit c
  || (n =? 95)%nat.

(** [s.split(sep)] for a one-character separator: never empty. *)
Fixpoint split (sep : ascii) (s : string) : list string :=
  match s with
  | EmptyString => [EmptyString]
  | String c s' =>
      if Ascii.eqb c sep then EmptyString :: split sep s'
      else match split sep s' with
           | seg :: rest => String c seg :: rest
           | [] => [String c EmptyString]
           end
  end.

(** [/^\d/.test(s)] *)
Definition starts_with_digit (s : string) : bool :=
  match s with
  | String c _ => is_digit c
  | EmptyString => false
  end.

(** The text matched by [/^\d+/]: the longest run of digits at the start. *)
Fixpoint leading_digits (s : string) : string :=
  match s with
  | String c s' => if is_digit c then String c (leading_digits s') else EmptyString
  | EmptyString => EmptyString
  end.

(** [s.match(/^\d+/)]: [None] stands for [null]. *)
Definition match_leading_digits (s : string) : option string :=
  match leading_digits s with
  | EmptyString => None
  | d => Some d
  end.

Definition digit_value (c : ascii) : Z := Z.of_nat (nat_of_ascii c) - 48.

(** The integer written by a string of decimal digits, most significant
    digit first. *)
Fixpoint decimal_value (acc : Z) (s : string) : Z :=
  match s with
  | String c s' => decimal_value (10 * acc + digit_value c) s'
  | EmptyString => acc
  end.

(** [parseInt(m, 10)] for the result [m] of [match]: [null] is read as the
    text "null", which has no digits and gives NaN; a match is read as its
    digits. *)
Definition parseInt (m : option string) : number :=
  match m with
  | None => NaN
  | Some d => to_number (decimal_value 0 d)
  end.

(** [/^[a-zA-Z0-9_]+$/.test(s)] *)
Fixpoint all_word_chars (s : string) : bool :=
  match s with
  | String c s' => is_word_char c && all_word_chars s'
  | EmptyString => true
  end.

Definition level_format_ok (s : string) : bool :=
  match s with
  | EmptyString => false
  | _ => all_word_chars s
  end.

(** ** Array.prototype.sort

    The sort is stable; an element moves behind another one only when
    the comparator is positive on the pair. The algorithm of the engine
    is not fixed by the language; for a consistent comparator every
    sorted and stable result is the list computed here
    ([array_sort_unique] below). *)

Section ArraySort.
Context {A : Type}.
Variable comparefn : A -> A -> number.

Fixpoint sort_insert (x : A) (l : list A) : list A :=
  match l with
  | [] => [x]
  | y :: l' =>
      if is_positive (comparefn x y) then y :: sort_insert x l'
      else x :: l
  end.

Fixpoint array_sort (l : list A) : list A :=
  match l with
  | [] => []
  | x :: l' => sort_insert x (array_sort l')
  end.

End ArraySort.

(** ** Asset descriptors and the classified list *)

Record resource : Type := {
  secure_url : string;
  public_id : string
}.

Record fileInfo : Type := {
  url : string;
  filename : string;
  displayName : string
}.

Definition last_part (filenameParts : list string) : string :=
  List.last filenameParts EmptyString.

Definition fileInfo_of (file : resource) : fileInfo :=
  let filenameParts := split "/" (public_id file) in
  {| url := secure_url file;
     filename := public_id file;
     displayName := last_part filenameParts |}.

(** One round of [resources.forEach]: the descriptor is pushed on
    [numberFiles] or on [letterFiles]. *)
Definition push_file (acc : list fileInfo * list fileInfo) (file : resource)
  : list fileInfo * list fileInfo :=
  let info := fileInfo_of file in
  if starts_with_digit (displayName info)
  then (fst acc ++ [info], snd acc)
  else (fst acc, snd acc ++ [info]).

Definition leading_number (f : fileInfo) : number :=
  or_zero (parseInt (match_leading_digits (displayName f))).

Definition compare_numbers (a b : fileInfo) : number :=
  let numA := leading_number a in
  let numB := leading_number b in
  number_sub numA numB.

Section Classifier.

(** [String.prototype.localeCompare] belongs to the host's collation; it
    is a parameter of the model. *)
Variable localeCompare : string -> string -> Z.

Definition compare_letters (a b : fileInfo) : number :=
  Fin (localeCompare (displayName a) (displayName b)).

Definition pgnFiles (resources : list resource) : list fileInfo :=
  let '(numberFiles, letterFiles) := fold_left push_file resources ([], []) in
  array_sort compare_numbers numberFiles
    ++ array_sort compare_letters letterFiles.

End Classifier.

(** Comparison by character code, an instance of [localeCompare]. *)
Fixpoint codeCompare (a b : string) : Z :=
  match a, b with
  | EmptyString, EmptyString => 0
  | EmptyString, String _ _ => -1
  | String _ _, EmptyString => 1
  | String x a', String y b' =>
      let d := Z.of_nat (nat_of_ascii x) - Z.of_nat (nat_of_ascii y) in
      if d =? 0 then codeCompare a' b' else Z.sgn d
  end.

(** ** The cache store

    The cache store [fileCache] is an instance of the node-cache package,
    a dependency of the application whose code is not under src/. The
    source creates it with [stdTTL: 43200], [checkperiod: 600] and
    [useClones: false], and calls [get], [set], [has], [del] and
    [flushAll] on it. Lists are stored by reference; no handler changes a
    list after storing it. *)

Module NodeCache.

(** Modelled from the spec: an entry of the node-cache store, which is
    not under src/: the stored list and the instant at which its time to
    live ends (0 for an entry that never expires). *)
Record wrapped : Type := {
  t : Z;
  v : list fileInfo
}.

Abbreviation data := (gmap string wrapped).

(** [stdTTL: 43200] and [checkperiod: 600], in seconds, from the source. *)
Definition stdTTL : Z := 43200.
Definition checkperiod : Z := 600.

(** Modelled from the spec: the wrapping of a value by [set] in
    node-cache, which is not under src/: the time to live counts from
    the [set], 12 hours with the [stdTTL] of the source. *)
Definition _wrap (value : list fileInfo) (now : Z) : wrapped :=
  {| t := now + stdTTL * 1000; v := value |}.

(** Modelled from the spec: the expiry test of node-cache, which is not
    under src/: an entry has run out when its time to live has passed. *)
Definition expired (d : wrapped) (now : Z) : bool :=
  negb (t d =? 0) && (t d <? now).

(** Modelled from the spec: the check node-cache makes on every access,
    which is not under src/: an entry that has run out counts as absent;
    as the package does when [deleteOnExpire] is left at its default, the
    entry is dropped from the store at that access. *)
Definition _check (key : string) (d : wrapped) (now : Z) (c : data)
  : data * bool :=
  if expired d now then (delete key c, false) else (c, true).

(** Modelled from the spec: [get] of node-cache, which is not under
    src/: the stored list, or absent for a key that is missing or has
    run out. *)
Definition get (key : string) (now : Z) (c : data)
  : data * option (list fileInfo) :=
  match c !! key with
  | Some d =>
      let '(c', ok) := _check key d now c in
      (c', if ok then Some (v d) else None)
  | None => (c, None)
  end.

(** Modelled from the spec: [has] of node-cache, which is not under
    src/: whether the key is present and has not run out. *)
Definition has (key : string) (now : Z) (c : data) : data * bool :=
  match c !! key with
  | Some d => _check key d now c
  | None => (c, false)
  end.

(** Modelled from the spec: [set] of node-cache, which is not under
    src/: stores the list and starts its time to live anew. *)
Definition set (key : string) (value : list fileInfo) (now : Z) (c : data)
  : data :=
  <[key := _wrap value now]> c.

(** Modelled from the spec: [del] of node-cache, which is not under
    src/: removes one entry. *)
Definition del (key : string) (c : data) : data := delete key c.

(** Modelled from the spec: [flushAll] of node-cache, which is not under
    src/: removes all entries. *)
Definition flushAll (c : data) : data := ∅.

(** Modelled from the spec: the sweep of node-cache, which is not under
    src/; it runs every [checkperiod] seconds and drops the entries that
    have run out. *)
Definition _checkData (now : Z) (c : data) : data :=
  filter (fun kd => expired (snd kd) now = false) c.

End NodeCache.

(** ** Requests, responses and what a handler does

    A handler is run in two parts, as the event loop runs it: the part up
    to the [await] of the search, and the part that resumes when the
    search has settled. Each part takes the cache and the time at which it
    runs, and returns the cache it leaves and the events it causes, in
    order. Other handlers may run between the two parts. *)

Inductive payload : Type :=
| Files (files : list fileInfo)
| ErrorMessage (error message : string)
| ErrorOnly (error : string)
| Success (message : string)
| PrefetchAck (message : string) (levelsToPrefetch : list string).

Record response : Type := {
  status : Z;
  headers : list (string * string);
  body : payload
}.

Inductive log_line : Type :=
| ServingCached (level : string)
| FetchingFromCloudinary (level : string)
| SuccessfullyServed (count : nat) (level : string)
| ErrorFetching
| ServingStale (level : string)
| CacheCleared (level : string)
| AllCacheCleared
| AlreadyInCache (level : string)
| BackgroundPrefetching (level : string)
| PrefetchComplete (level : string) (count : nat)
| PrefetchError (level : string).

Inductive event : Type :=
| Send (r : response)
| Execute (expression : string) (max_results : Z)
| Log (l : log_line).

(** How the promise of [cloudinary.search ... execute()] settles: with a
    value whose [resources] is an array ([Some]) or is not ([None]), or
    with an error. *)
Inductive settled : Type :=
| Fulfilled (resources : option (list resource))
| Rejected.

(** The search as the handler meets it: it settles after some
    milliseconds, or never. *)
Inductive upstream : Type :=
| Settles (after : Z) (s : settled)
| Never.

(** [Promise.race([fetchPromise, timeoutPromise])] with the timer of 8000
    ms: what the [await] yields, and after how long. *)
Definition race (u : upstream) : settled * Z :=
  match u with
  | Settles after s => if after <? 8000 then (s, after) else (Rejected, 8000)
  | Never => (Rejected, 8000)
  end.

(** JavaScript truthiness of an optional string: absent and the empty
    string are falsy. *)
Definition truthy (s : option string) : bool :=
  match s with
  | Some (String _ _) => true
  | _ => false
  end.

(** [`folder:${level} AND format:pgn`] *)
Definition search_expression (level : string) : string :=
  String.append "folder:" (String.append level " AND format:pgn").

Definition is_search (e : event) : bool :=
  match e with Execute _ _ => true | _ => false end.

Definition is_send (e : event) : bool :=
  match e with Send _ => true | _ => false end.

Section Handlers.

Variable localeCompare : string -> string -> Z.

(** [process.env.ADMIN_API_KEY], absent when the variable is not set. *)
Variable ADMIN_API_KEY : option string.

(** *** GET /api/pgn-files *)

Definition level_required : response :=
  {| status := 400; headers := [];
     body := ErrorMessage "Level is required" "Please provide a level parameter" |}.

Definition invalid_level_format : response :=
  {| status := 400; headers := [];
     body := ErrorMessage "Invalid level format"
       "Level must contain only alphanumeric characters and underscores" |}.

Definition failed_to_fetch : response :=
  {| status := 500; headers := [];
     body := ErrorMessage "Failed to fetch PGN files"
       "There was an error retrieving files. Please try again later." |}.

Definition fresh_response (files : list fileInfo) : response :=
  {| status := 200;
     headers := [("Cache-Control", "public, max-age=3600")];
     body := Files files |}.

Definition cached_response (files : list fileInfo) : response :=
  {| status := 200; headers := []; body := Files files |}.

Definition stale_response (files : list fileInfo) : response :=
  {| status := 200;
     headers := [("X-Served-From-Stale-Cache", "true")];
     body := Files files |}.

(** The handler up to the [await]. The last component is the level whose
    search the handler is left waiting for, if any. The level is the
    [level] of the query when it is absent or a text; a query that gives
    it as an array or an object is not modelled. *)
Definition pgn_files_start (level : option string) (now : Z)
  (c : NodeCache.data) : NodeCache.data * list event * option string :=
  match level with
  | Some (String _ _ as level) =>
      if negb (level_format_ok level) then (c, [Send invalid_level_format], None)
      else
        let '(c, cachedFiles) := NodeCache.get level now c in
        match cachedFiles with
        | Some files =>
            (c, [Log (ServingCached level); Send (cached_response files)], None)
        | None =>
            (c, [Log (FetchingFromCloudinary level);
                 Execute (search_expression level) 500], Some level)
        end
  | _ => (c, [Send level_required], None)
  end.

(** The [catch] block. *)
Definition pgn_files_catch (level : string) (now : Z) (c : NodeCache.data)
  : NodeCache.data * list event :=
  let '(c, staleCache) := NodeCache.get level now c in
  match staleCache with
  | Some files =>
      (c, [Log ErrorFetching; Log (ServingStale level); Send (stale_response files)])
  | None => (c, [Log ErrorFetching; Send failed_to_fetch])
  end.

(** The handler from the [await] on. *)
Definition pgn_files_resume (level : string) (s : settled) (now : Z)
  (c : NodeCache.data) : NodeCache.data * list event :=
  match s with
  | Fulfilled (Some resources) =>
      let files := pgnFiles localeCompare resources in
      (NodeCache.set level files now c,
       [Send (fresh_response files);
        Log (SuccessfullyServed (List.length files) level)])
  | Fulfilled None => pgn_files_catch level now c
  | Rejected => pgn_files_catch level now c
  end.

(** A request served with no other handler running in between. *)
Definition pgn_files (level : option string) (u : upstream) (now : Z)
  (c : NodeCache.data) : NodeCache.data * list event :=
  let '(c, events, waiting) := pgn_files_start level now c in
  match waiting with
  | Some level =>
      let '(s, elapsed) := race u in
      let '(c, events') := pgn_files_resume level s (now + elapsed) c in
      (c, events ++ events')
  | None => (c, events)
  end.

(** *** POST /api/clear-cache *)

Record clear_cache_body : Type := {
  level : option string;
  apiKey : option string
}.

Definition unauthorized : response :=
  {| status := 401; headers := []; body := ErrorOnly "Unauthorized" |}.

Definition clear_cache (req : clear_cache_body) (c : NodeCache.data)
  : NodeCache.data * list event :=
  if negb (bool_decide (apiKey req = ADMIN_API_KEY)) then (c, [Send unauthorized])
  else
    match level req with
    | Some (String _ _ as level) =>
        (NodeCache.del level c,
         [Log (CacheCleared level);
          Send {| status := 200; headers := [];
                  body := Success (String.append "Cache cleared for " level) |}])
    | _ =>
        (NodeCache.flushAll c,
         [Log AllCacheCleared;
          Send {| status := 200; headers := []; body := Success "All cache cleared" |}])
    end.

(** *** GET /api/prefetch *)

Definition levels_required : response :=
  {| status := 400; headers := []; body := ErrorOnly "Levels parameter required" |}.

Definition prefetch_ack (levelsToPrefetch : list string) : response :=
  {| status := 200; headers := [];
     body := PrefetchAck "Prefetch request received" levelsToPrefetch |}.

(** One callback of [levelsToPrefetch.forEach], up to its [await]; the
    last component is the level it waits for, if any. *)
Definition prefetch_one_start (level : string) (now : Z) (c : NodeCache.data)
  : NodeCache.data * list event * list string :=
  let '(c, present) := NodeCache.has level now c in
  if present then (c, [Log (AlreadyInCache level)], [])
  else (c, [Log (BackgroundPrefetching level);
            Execute (search_expression level) 500], [level]).

Fixpoint prefetch_each (levelsToPrefetch : list string) (now : Z)
  (c : NodeCache.data) : NodeCache.data * list event * list string :=
  match levelsToPrefetch with
  | [] => (c, [], [])
  | level :: rest =>
      let '(c, events, waiting) := prefetch_one_start level now c in
      let '(c, events', waiting') := prefetch_each rest now c in
      (c, events ++ events', waiting ++ waiting')
  end.

(** The handler up to the end of the [forEach]: the answer, then the
    start of every callback. The last component lists the levels whose
    search is awaited. *)
Definition prefetch_start (levels : option string) (now : Z)
  (c : NodeCache.data) : NodeCache.data * list event * list string :=
  match levels with
  | Some (String _ _ as levels) =>
      let levelList := split "," levels in
      let levelsToPrefetch := List.firstn 5 levelList in
      let '(c, events, waiting) := prefetch_each levelsToPrefetch now c in
      (c, Send (prefetch_ack levelsToPrefetch) :: events, waiting)
  | _ => (c, [Send levels_required], [])
  end.

(** A callback from its [await] on. A value without an array of
    resources makes [resources.forEach] throw; that and a rejection end
    in the [catch], which only logs. *)
Definition prefetch_resume (level : string) (s : settled) (now : Z)
  (c : NodeCache.data) : NodeCache.data * list event :=
  match s with
  | Fulfilled (Some resources) =>
      let files := pgnFiles localeCompare resources in
      (NodeCache.set level files now c,
       [Log (PrefetchComplete level (List.length files))])
  | Fulfilled None => (c, [Log (PrefetchError level)])
  | Rejected => (c, [Log (PrefetchError level)])
  end.

(** The callbacks resume one at a time, in the order and at the times
    their searches settle. *)
Fixpoint prefetch_background (settlements : list (string * settled * Z))
  (c : NodeCache.data) : NodeCache.data * list event :=
  match settlements with
  | [] => (c, [])
  | (level, s, now) :: rest =>
      let '(c, events) := prefetch_resume level s now c in
      let '(c, events') := prefetch_background rest c in
      (c, events ++ events')
  end.

End Handlers.

(** ** Notions used in the statements *)

(** [x] may stay in front of [y] under the comparator. *)
Definition keeps_order {A : Type} (comparefn : A -> A -> number) (x y : A) : Prop :=
  is_positive (comparefn x y) = false.

(** Neither of [x] and [y] has to go behind the other. *)
Definition ties {A : Type} (comparefn : A -> A -> number) (x y : A) : bool :=
  negb (is_positive (comparefn x y)) && negb (is_positive (comparefn y x)).

(** The order of the numbers; NaN is not comparable. *)
Definition number_leb (a b : number) : bool :=
  match a, b with
  | Fin x, Fin y => x <=? y
  | NegInf, (Fin _ | NegInf | PosInf) => true
  | Fin _, PosInf => true
  | PosInf, PosInf => true
  | _, _ => false
  end.

Definition number_eqb (a b : number) : bool :=
  match a, b with
  | Fin x, Fin y => x =? y
  | PosInf, PosInf => true
  | NegInf, NegInf => true
  | NaN, NaN => true
  | _, _ => false
  end.

(** The values a sort key can take. *)
Definition is_key (x : number) : Prop :=
  match x with
  | Fin z => 0 <= z
  | PosInf => True
  | _ => False
  end.

(** The integer written by the leading digits of a name, 0 when there is
    none. *)
Definition leading_int (s : string) : Z := decimal_value 0 (leading_digits s).

(** A consistent comparator, as the sort requires of [comparefn]. *)
Record consistent_comparator (compare : string -> string -> Z) : Prop := {
  cc_antisym : forall a b, Z.sgn (compare b a) = - Z.sgn (compare a b);
  cc_trans : forall a b c, compare a b <= 0 -> compare b c <= 0 -> compare a c <= 0
}.

Fixpoint has_char (c : ascii) (s : string) : bool :=
  match s with
  | String d s' => Ascii.eqb d c || has_char c s'
  | EmptyString => false
  end.

Definition is_numbered (f : fileInfo) : bool := starts_with_digit (displayName f).

(** The key by which the numbered entries are ordered. *)
Definition number_key (f : fileInfo) : number :=
  to_number (leading_int (displayName f)).

(** [out] is [infos] classified: the numbered entries in ascending order
    of their keys, then the others in ascending order of their names,
    entries that tie staying in the order they have in [infos]. *)
Definition classified_order (localeCompare : string -> string -> Z)
  (infos out : list fileInfo) : Prop :=
  exists numberFiles letterFiles,
    out = numberFiles ++ letterFiles
    /\ Permutation numberFiles (List.filter is_numbered infos)
    /\ Permutation letterFiles (List.filter (fun f => negb (is_numbered f)) infos)
    /\ StronglySorted
         (fun a b => number_leb (number_key a) (number_key b) = true) numberFiles
    /\ StronglySorted
         (fun a b => localeCompare (displayName a) (displayName b) <= 0) letterFiles
    /\ (forall k,
          List.filter (fun f => number_eqb (number_key f) k) numberFiles
          = List.filter (fun f => number_eqb (number_key f) k)
              (List.filter is_numbered infos))
    /\ (forall s,
          List.filter (fun f => localeCompare s (displayName f) =? 0) letterFiles
          = List.filter (fun f => localeCompare s (displayName f) =? 0)
              (List.filter (fun f => negb (is_numbered f)) infos))
    /\ (Forall (fun f => leading_int (displayName f) < 2 ^ 53) infos ->
        StronglySorted
          (fun a b => leading_int (displayName a) <= leading_int (displayName b))
          numberFiles).

(** The four descriptors of the example, with any URLs. *)
Definition example_resources (u1 u2 u3 u4 : string) : list resource :=
  [ {| secure_url := u1; public_id := "folderA/10_game" |};
    {| secure_url := u2; public_id := "folderA/2_game" |};
    {| secure_url := u3; public_id := "folderA/bishop" |};
    {| secure_url := u4; public_id := "folderA/apple" |} ].

(** The descriptor a classified entry was made from. *)
Definition resource_of (f : fileInfo) : resource :=
  {| secure_url := url f; public_id := filename f |}.

(** A store that differs from another one only by entries that have run
    out at the time [now]. *)
Definition same_but_expired (now : Z) (c' c : NodeCache.data) : Prop :=
  forall k, c' !! k = c !! k
    \/ (c' !! k = None /\ exists d, c !! k = Some d /\ NodeCache.expired d now = true).

(** The level is not present in the cache at the time [now]. *)
Definition absent_at (now : Z) (c : NodeCache.data) (level : string) : bool :=
  negb (snd (NodeCache.has level now c)).

(** The search did not deliver an array of resources. *)
Definition failed (s : settled) : bool :=
  match s with
  | Fulfilled (Some _) => false
  | _ => true
  end.

Definition res (id : string) : resource :=
  {| secure_url := String.append "https://res.cloudinary.com/" id; public_id := id |}.

(** ** GET /api/pgn-content

    The handler that relays the text of one PGN file. [fetch] is the
    host's; how it settles is a parameter. The headers of a reply are the
    ones the handler sets itself. *)

Module PgnContent.

(** [s.includes(searchString)] *)
Fixpoint includes (s searchString : string) : bool :=
  String.prefix searchString s
  || match s with
     | String _ s' => includes s' searchString
     | EmptyString => false
     end.


(** [response.ok] *)
Definition ok (status : Z) : bool := (200 <=? status) && (status <=? 299).

Inductive content : Type :=
| Text (text : string)
| JsonError (error : string) (message : option string).

Inductive event : Type :=
| Fetch (url : string)
| Reply (status : Z) (headers : list (string * string)) (body : content)
| LogError.

Definition url_required : event :=
  Reply 400 [] (JsonError "URL parameter is required" None).

Definition invalid_url : event :=
  Reply 400 [] (JsonError "Invalid URL format" None).


(** The handler up to the [await] of [fetch]; the second component is
    the URL whose fetch it waits for, if any. *)
Definition pgn_content_start (url : option string) : list event * option string :=
  match url with
  | Some (String _ _ as url) =>
      if negb (includes url "cloudinary.com") then ([invalid_url], None)
      else ([Fetch url], Some url)
  | _ => ([url_required], None)
  end.





End PgnContent.

(** ** The handler of src/server.js

    The version of /api/pgn-files without cache, deadline and check of
    the characters of the level: it classifies on the whole public id,
    reads the leading number without a default, and compares the other
    entries by their whole public id. *)

Module ServerJs.

Record pgnFile : Type := {
  url : string;
  filename : string
}.

Definition pgnFile_of (file : resource) : pgnFile :=
  {| url := secure_url file; filename := public_id file |}.

Definition push_file (acc : list pgnFile * list pgnFile) (file : resource)
  : list pgnFile * list pgnFile :=
  let filename := public_id file in
  if starts_with_digit filename
  then (fst acc ++ [pgnFile_of file], snd acc)
  else (fst acc, snd acc ++ [pgnFile_of file]).

(** [parseInt(a.filename.match(/^\d+/), 10)] *)
Definition leading_number (f : pgnFile) : number :=
  parseInt (match_leading_digits (filename f)).

Definition compare_numbers (a b : pgnFile) : number :=
  let numA := leading_number a in
  let numB := leading_number b in
  number_sub numA numB.

Definition compare_letters (localeCompare : string -> string -> Z)
  (a b : pgnFile) : number :=
  Fin (localeCompare (filename a) (filename b)).

Definition pgnFiles (localeCompare : string -> string -> Z)
  (resources : list resource) : list pgnFile :=
  let '(numberFiles, letterFiles) := fold_left push_file resources ([], []) in
  array_sort compare_numbers numberFiles
    ++ array_sort (compare_letters localeCompare) letterFiles.

Inductive reply : Type :=
| Json (files : list pgnFile)
| Error (error : string).

(** The search of this version sets no [max_results]; the first version
    asks for an order by a field. *)
Inductive event : Type :=
| Query (expression : string) (sort_by : option (string * string))
| Respond (status : Z) (body : reply)
| LogError.

(** The search is awaited without a deadline: while it does not settle
    the handler does not go on. *)
Definition pgn_files (localeCompare : string -> string -> Z)
  (level : option string) (u : upstream) : list event :=
  match level with
  | Some (String _ _ as level) =>
      Query (search_expression level) None
      :: match u with
         | Settles _ (Fulfilled (Some resources)) =>
             [Respond 200 (Json (pgnFiles localeCompare resources))]
         | Settles _ _ => [LogError; Respond 500 (Error "Failed to fetch PGN files")]
         | Never => []
         end
  | _ => [Respond 400 (Error "Level is required")]
  end.

Definition is_respond (e : event) : bool :=
  match e with Respond _ _ => true | _ => false end.

End ServerJs.

(** ** The first version of the handler

    The first of the versions of the application kept in the repository:
    the descriptors are returned as the search delivers them, ordered by
    the search itself by date of creation. *)

Module FirstVersion.

(** [`folder: ${level} AND format:pgn`] *)
Definition search_expression (level : string) : string :=
  String.append "folder: " (String.append level " AND format:pgn").

Definition pgnFiles (resources : list resource) : list ServerJs.pgnFile :=
  map ServerJs.pgnFile_of resources.

Definition pgn_files (level : option string) (u : upstream)
  : list ServerJs.event :=
  match level with
  | Some (String _ _ as level) =>
      ServerJs.Query (search_expression level) (Some ("created_at", "desc"))
      :: match u with
         | Settles _ (Fulfilled (Some resources)) =>
             [ServerJs.Respond 200 (ServerJs.Json (pgnFiles resources))]
         | Settles _ _ =>
             [ServerJs.LogError;
              ServerJs.Respond 500 (ServerJs.Error "Failed to fetch PGN files")]
         | Never => []
         end
  | _ => [ServerJs.Respond 400 (ServerJs.Error "Level is required")]
  end.

End FirstVersion.

(** The entry of src/server.js that a classified entry stands for. *)
Definition drop_displayName (f : fileInfo) : ServerJs.pgnFile :=
  {| ServerJs.url := url f; ServerJs.filename := filename f |}.

(** An entry of src/server.js whose public id begins with a digit. *)
Definition id_numbered (g : ServerJs.pgnFile) : bool :=
  starts_with_digit (ServerJs.filename g).

(** The level under which a settlement of a prefetch stores. *)
Definition settlement_level (x : string * settled * Z) : string := fst (fst x).

(** ** Facts about the sort *)

Section ArraySortFacts.
Context {A : Type}.
Variable comparefn : A -> A -> number.

Local Abbreviation keeps_order := (keeps_order comparefn).

Lemma sort_insert_perm (x : A) (l : list A) :
  Permutation (sort_insert comparefn x l) (x :: l).
Proof.
  induction l as [|y l IH]; simpl.
  - apply Permutation_refl.
  - destruct (is_positive (comparefn x y)).
    + eapply Permutation_trans; [apply perm_skip, IH | apply perm_swap].
    + apply Permutation_refl.
Qed.

Lemma array_sort_perm (l : list A) : Permutation (array_sort comparefn l) l.
Proof.
  induction l as [|x l IH]; simpl.
  - apply perm_nil.
  - eapply Permutation_trans; [apply sort_insert_perm | apply perm_skip, IH].
Qed.

(** A list in which no neighbour has to move is left as it is. *)
Lemma array_sort_sorted_id (l : list A) :
  Sorted keeps_order l -> array_sort comparefn l = l.
Proof.
  induction 1 as [|x l Hs IH Hd]; simpl; [reflexivity|].
  rewrite IH. destruct Hd as [|y l' Hxy]; simpl; [reflexivity|].
  unfold keeps_order in Hxy. rewrite Hxy. reflexivity.
Qed.

(** An element never moves past another one of a class whose members
    keep their order pairwise: the sort is stable. *)
Lemma sort_insert_filter (P : A -> bool) (x : A) (l : list A) :
  (forall a b, P a = true -> P b = true -> keeps_order a b) ->
  List.filter P (sort_insert comparefn x l) = List.filter P (x :: l).
Proof.
  intros HP. induction l as [|y l IH]; [reflexivity|].
  simpl sort_insert.
  destruct (is_positive (comparefn x y)) eqn:Hpos; [|reflexivity].
  simpl in *. rewrite IH.
  destruct (P x) eqn:Hx, (P y) eqn:Hy; try reflexivity.
  specialize (HP x y Hx Hy). unfold keeps_order in HP. congruence.
Qed.

Lemma array_sort_filter (P : A -> bool) (l : list A) :
  (forall a b, P a = true -> P b = true -> keeps_order a b) ->
  List.filter P (array_sort comparefn l) = List.filter P l.
Proof.
  intros HP. induction l as [|x l IH]; [reflexivity|].
  simpl array_sort. rewrite sort_insert_filter by exact HP.
  simpl. rewrite IH. reflexivity.
Qed.

Hypothesis comparefn_asym :
  forall x y, is_positive (comparefn x y) = true -> keeps_order y x.

Lemma sort_insert_sorted (x : A) (l : list A) :
  Sorted keeps_order l -> Sorted keeps_order (sort_insert comparefn x l).
Proof.
  induction 1 as [|y l Hs IH Hd]; simpl.
  - repeat constructor.
  - destruct (is_positive (comparefn x y)) eqn:Hpos.
    + constructor; [exact IH|].
      destruct Hd as [|z l' Hyz]; simpl.
      * constructor. apply comparefn_asym, Hpos.
      * destruct (is_positive (comparefn x z)).
        -- constructor. exact Hyz.
        -- constructor. apply comparefn_asym, Hpos.
    + constructor; [constructor; assumption|].
      constructor. exact Hpos.
Qed.

Lemma array_sort_sorted (l : list A) : Sorted keeps_order (array_sort comparefn l).
Proof.
  induction l as [|x l IH]; simpl; [constructor|].
  apply sort_insert_sorted, IH.
Qed.

Lemma array_sort_idempotent (l : list A) :
  array_sort comparefn (array_sort comparefn l) = array_sort comparefn l.
Proof. apply array_sort_sorted_id, array_sort_sorted. Qed.


Hypothesis comparefn_trans :
  forall x y z, keeps_order x y -> keeps_order y z -> keeps_order x z.

Local Abbreviation ties := (ties comparefn).

Lemma keeps_order_refl (x : A) : keeps_order x x.
Proof.
  unfold keeps_order.
  destruct (is_positive (comparefn x x)) eqn:H; [|reflexivity].
  pose proof (comparefn_asym x x H) as H'. unfold keeps_order in H'. congruence.
Qed.

Lemma ties_refl (x : A) : ties x x = true.
Proof.
  unfold ties. pose proof (keeps_order_refl x) as H.
  unfold keeps_order in H. rewrite H. reflexivity.
Qed.

Lemma ties_keeps (x y : A) :
  ties x y = true <-> keeps_order x y /\ keeps_order y x.
Proof.
  unfold ties, keeps_order.
  rewrite andb_true_iff, !negb_true_iff. tauto.
Qed.

Lemma array_sort_strongly_sorted (l : list A) :
  StronglySorted keeps_order (array_sort comparefn l).
Proof.
  apply Sorted_StronglySorted; [exact comparefn_trans | apply array_sort_sorted].
Qed.

Lemma array_sort_stable (x : A) (l : list A) :
  List.filter (ties x) (array_sort comparefn l) = List.filter (ties x) l.
Proof.
  apply array_sort_filter. intros a b Ha Hb.
  apply ties_keeps in Ha as [_ Hax], Hb as [Hxb _].
  eapply comparefn_trans; eauto.
Qed.

Lemma filter_head_split (P : A -> bool) (l : list A) (a : A) (rest : list A) :
  List.filter P l = a :: rest ->
  exists before after,
    l = before ++ a :: after
    /\ Forall (fun x => P x = false) before
    /\ List.filter P after = rest.
Proof.
  induction l as [|x l IH]; simpl; [discriminate|].
  destruct (P x) eqn:Hx.
  - intros [= -> <-]. exists [], l. auto.
  - intros H. destruct (IH H) as [before [after [-> [Hb Ha]]]].
    exists (x :: before), after. auto.
Qed.

(** Two sorted lists that hold the members of every tie class in the
    same order are equal. *)
Lemma stable_sorted_unique (out1 out2 : list A) :
  StronglySorted keeps_order out1 -> StronglySorted keeps_order out2 ->
  (forall x, List.filter (ties x) out1 = List.filter (ties x) out2) ->
  out1 = out2.
Proof.
  intros Hs1. revert out2. induction Hs1 as [|a r1 Hs1 IH Ha]; intros out2 Hs2 Hf.
  - destruct out2 as [|b r2]; [reflexivity|].
    specialize (Hf b). simpl in Hf. rewrite ties_refl in Hf. discriminate.
  - pose proof (Hf a) as Hfa. simpl in Hfa. rewrite ties_refl in Hfa.
    symmetry in Hfa.
    apply filter_head_split in Hfa as [before [after [-> [Hb _]]]].
    destruct before as [|b before].
    + simpl in *. f_equal. apply IH.
      * inversion Hs2; assumption.
      * intros x. specialize (Hf x). simpl in Hf.
        destruct (ties x a); [injection Hf; auto | exact Hf].
    + exfalso. simpl in Hs2. inversion Hs2 as [|? ? _ Hall]; subst.
      rewrite List.Forall_forall in Hall.
      assert (Hba : keeps_order b a) by (apply Hall, in_elt).
      inversion Hb as [|? ? Hab _]; subst.
      assert (Hpos : is_positive (comparefn a b) = true).
      { unfold ties in Hab. unfold keeps_order in Hba.
        rewrite Hba in Hab. simpl in Hab. rewrite andb_true_r in Hab.
        apply negb_false_iff in Hab. exact Hab. }
      specialize (Hf b). simpl in Hf. rewrite ties_refl in Hf.
      assert (Hta : ties b a = false).
      { unfold ties. rewrite Hpos. apply andb_false_r. }
      rewrite Hta in Hf.
      apply filter_head_split in Hf as [pre [post [Hr1 _]]].
      assert (Hin : In b r1) by (rewrite Hr1; apply in_elt).
      rewrite List.Forall_forall in Ha. specialize (Ha b Hin).
      unfold keeps_order in Ha. congruence.
Qed.

(** Whatever algorithm the sort uses, a result that is sorted and stable
    is the list [array_sort] computes. *)
Lemma array_sort_unique (l out : list A) :
  StronglySorted keeps_order out ->
  (forall x, List.filter (ties x) out = List.filter (ties x) l) ->
  out = array_sort comparefn l.
Proof.
  intros Hs Hf. apply stable_sorted_unique;
    [exact Hs | apply array_sort_strongly_sorted|].
  intros x. rewrite array_sort_stable. apply Hf.
Qed.

End ArraySortFacts.

(** ** Facts about numbers *)

Lemma round_half_even_pos (n e : Z) :
  0 < e -> 2 ^ e <= n -> 0 < round_half_even n e.
Proof.
  intros He Hn. unfold round_half_even.
  assert (Hp : 0 < 2 ^ e) by (apply Z.pow_pos_nonneg; lia).
  assert (Hq : 0 < n / 2 ^ e) by (apply Z.div_str_pos; lia).
  repeat match goal with |- context [if ?b then _ else _] => destruct b end; nia.
Qed.

Lemma round_magnitude_pos (n m : Z) :
  0 < n -> round_magnitude n = Some m -> 0 < m.
Proof.
  intros Hn. unfold round_magnitude.
  destruct (n <? 2 ^ 53) eqn:Hsmall; [intros [= <-]; exact Hn|].
  destruct (round_half_even n (Z.log2 n - 52) <? 2 ^ 1024); [|discriminate].
  intros [= <-]. apply Z.ltb_ge in Hsmall.
  assert (H53 : 53 <= Z.log2 n).
  { apply Z.log2_le_pow2; [lia | exact Hsmall]. }
  apply round_half_even_pos; [lia|].
  transitivity (2 ^ Z.log2 n).
  - apply Z.pow_le_mono_r; lia.
  - apply Z.log2_spec. exact Hn.
Qed.

Lemma round_magnitude_zero : round_magnitude 0 = Some 0.
Proof. reflexivity. Qed.

(** The sign of a rounded integer is the sign of the integer. *)
Lemma is_positive_to_number (d : Z) : is_positive (to_number d) = (0 <? d).
Proof.
  unfold to_number. destruct (0 <=? d) eqn:Hd.
  - apply Z.leb_le in Hd. destruct (Z.eq_dec d 0) as [->|Hne]; [reflexivity|].
    destruct (round_magnitude d) as [m|] eqn:Hm; simpl.
    + apply round_magnitude_pos in Hm; lia.
    + symmetry. apply Z.ltb_lt. lia.
  - apply Z.leb_gt in Hd.
    destruct (round_magnitude (- d)) as [m|] eqn:Hm; simpl.
    + apply round_magnitude_pos in Hm; lia.
    + symmetry. apply Z.ltb_ge. lia.
Qed.

(** Below 2^53 the conversion is exact. *)
Lemma to_number_exact (n : Z) : 0 <= n < 2 ^ 53 -> to_number n = Fin n.
Proof.
  intros [H0 H53]. unfold to_number, round_magnitude.
  destruct (0 <=? n) eqn:E0; [|apply Z.leb_gt in E0; lia].
  destruct (n <? 2 ^ 53) eqn:E53; [reflexivity|apply Z.ltb_ge in E53; lia].
Qed.

Lemma to_number_is_key (n : Z) : 0 <= n -> is_key (to_number n).
Proof.
  intros Hn. unfold to_number.
  destruct (0 <=? n) eqn:E0; [|apply Z.leb_gt in E0; lia].
  destruct (round_magnitude n) as [m|] eqn:Hm; simpl; [|exact I].
  destruct (Z.eq_dec n 0) as [->|Hne]; [injection Hm as <-; lia|].
  apply round_magnitude_pos in Hm; lia.
Qed.

Lemma or_zero_key (x : number) : is_key x -> or_zero x = x.
Proof. destruct x as [[| |]| | |]; simpl; tauto. Qed.

Lemma key_sub_positive (x y : number) :
  is_key x -> is_key y ->
  is_positive (number_sub x y) = negb (number_leb x y).
Proof.
  destruct x as [a| | |], y as [b| | |]; simpl; try tauto; intros _ _.
  rewrite is_positive_to_number.
  destruct (0 <? a - b) eqn:E1, (a <=? b) eqn:E2; try reflexivity;
    rewrite ?Z.ltb_lt, ?Z.ltb_ge, ?Z.leb_le, ?Z.leb_gt in *; lia.
Qed.

Lemma number_leb_total (x y : number) :
  is_key x -> is_key y -> number_leb x y = false -> number_leb y x = true.
Proof.
  destruct x as [a| | |], y as [b| | |]; simpl; try tauto; try discriminate.
  intros _ _ H. apply Z.leb_gt in H. apply Z.leb_le. lia.
Qed.

Lemma number_leb_trans (x y z : number) :
  number_leb x y = true -> number_leb y z = true -> number_leb x z = true.
Proof.
  destruct x as [a| | |], y as [b| | |], z as [c| | |]; simpl;
    try discriminate; try reflexivity.
  rewrite !Z.leb_le. lia.
Qed.

Lemma number_eqb_eq (x y : number) : number_eqb x y = true <-> x = y.
Proof.
  destruct x as [a| | |], y as [b| | |]; simpl; split;
    try discriminate; try reflexivity.
  - intros H. apply Z.eqb_eq in H. congruence.
  - intros [= ->]. apply Z.eqb_refl.
Qed.

Lemma number_leb_refl_key (x : number) : is_key x -> number_leb x x = true.
Proof. destruct x; simpl; try tauto. intros _. apply Z.leb_refl. Qed.

(** ** Facts about the sort keys *)

Lemma is_digit_value (c : ascii) : is_digit c = true -> 0 <= digit_value c <= 9.
Proof.
  unfold is_digit, digit_value. intros H.
  apply andb_true_iff in H as [H1 H2].
  apply Nat.leb_le in H1, H2. lia.
Qed.

Lemma decimal_value_leading_nonneg (s : string) (acc : Z) :
  0 <= acc -> 0 <= decimal_value acc (leading_digits s).
Proof.
  revert acc. induction s as [|c s IH]; intros acc Hacc; simpl; [exact Hacc|].
  destruct (is_digit c) eqn:Hc; simpl; [|exact Hacc].
  apply IH. apply is_digit_value in Hc. lia.
Qed.

Lemma leading_int_nonneg (s : string) : 0 <= leading_int s.
Proof. apply decimal_value_leading_nonneg. lia. Qed.

(** The sort key of an entry is the rounded integer of its leading
    digits, and 0 for a name without leading digits. *)
Lemma leading_number_to_number (f : fileInfo) :
  leading_number f = to_number (leading_int (displayName f)).
Proof.
  unfold leading_number, match_leading_digits, leading_int.
  pose proof (leading_int_nonneg (displayName f)) as Hn. unfold leading_int in Hn.
  destruct (leading_digits (displayName f)) as [|c d] eqn:Hd; [reflexivity|].
  unfold parseInt. apply or_zero_key, to_number_is_key, Hn.
Qed.

Lemma leading_number_is_key (f : fileInfo) : is_key (leading_number f).
Proof.
  rewrite leading_number_to_number. apply to_number_is_key, leading_int_nonneg.
Qed.

Lemma compare_numbers_positive (a b : fileInfo) :
  is_positive (compare_numbers a b)
  = negb (number_leb (leading_number a) (leading_number b)).
Proof. apply key_sub_positive; apply leading_number_is_key. Qed.

Lemma compare_numbers_keeps (a b : fileInfo) :
  keeps_order compare_numbers a b
  <-> number_leb (leading_number a) (leading_number b) = true.
Proof.
  unfold keeps_order. rewrite compare_numbers_positive.
  destruct (number_leb _ _); simpl; split; congruence.
Qed.

Lemma compare_numbers_asym (a b : fileInfo) :
  is_positive (compare_numbers a b) = true -> keeps_order compare_numbers b a.
Proof.
  rewrite compare_numbers_positive, compare_numbers_keeps. intros H.
  apply negb_true_iff in H.
  apply number_leb_total; auto using leading_number_is_key.
Qed.

Lemma compare_numbers_trans (a b c : fileInfo) :
  keeps_order compare_numbers a b -> keeps_order compare_numbers b c ->
  keeps_order compare_numbers a c.
Proof. rewrite !compare_numbers_keeps. apply number_leb_trans. Qed.

(** The numbered entries come out the same from every sort that is
    sorted and stable under the comparator of the source. *)
Lemma numberFiles_sort_unique (numberFiles out : list fileInfo) :
  StronglySorted (keeps_order compare_numbers) out ->
  (forall x, List.filter (ties compare_numbers x) out
             = List.filter (ties compare_numbers x) numberFiles) ->
  out = array_sort compare_numbers numberFiles.
Proof.
  apply array_sort_unique;
    [exact compare_numbers_asym | exact compare_numbers_trans].
Qed.

Section LetterOrder.
Variable localeCompare : string -> string -> Z.

Lemma compare_letters_keeps (a b : fileInfo) :
  keeps_order (compare_letters localeCompare) a b
  <-> localeCompare (displayName a) (displayName b) <= 0.
Proof.
  unfold keeps_order, compare_letters, is_positive. rewrite Z.ltb_ge. tauto.
Qed.

Lemma compare_letters_asym (a b : fileInfo) :
  (forall x y, 0 < localeCompare x y -> localeCompare y x <= 0) ->
  is_positive (compare_letters localeCompare a b) = true ->
  keeps_order (compare_letters localeCompare) b a.
Proof.
  intros Hasym H. apply compare_letters_keeps, Hasym.
  unfold compare_letters, is_positive in H. apply Z.ltb_lt in H. exact H.
Qed.

Hypothesis consistent : consistent_comparator localeCompare.

Lemma consistent_asym (x y : string) :
  0 < localeCompare x y -> localeCompare y x <= 0.
Proof.
  intros H. pose proof (cc_antisym _ consistent x y) as Hs.
  destruct (localeCompare x y), (localeCompare y x); simpl in *; lia.
Qed.

Lemma compare_letters_trans (a b c : fileInfo) :
  keeps_order (compare_letters localeCompare) a b ->
  keeps_order (compare_letters localeCompare) b c ->
  keeps_order (compare_letters localeCompare) a c.
Proof. rewrite !compare_letters_keeps. apply (cc_trans _ consistent). Qed.

Lemma letterFiles_sort_unique (letterFiles out : list fileInfo) :
  StronglySorted (keeps_order (compare_letters localeCompare)) out ->
  (forall x, List.filter (ties (compare_letters localeCompare) x) out
             = List.filter (ties (compare_letters localeCompare) x) letterFiles) ->
  out = array_sort (compare_letters localeCompare) letterFiles.
Proof.
  apply array_sort_unique; [|exact compare_letters_trans].
  intros x y. apply compare_letters_asym. exact consistent_asym.
Qed.

(** Two names that tie with a third one tie with each other. *)
Lemma consistent_tie (s x y : string) :
  localeCompare s x = 0 -> localeCompare s y = 0 -> localeCompare x y <= 0.
Proof.
  intros Hx Hy.
  apply (cc_trans _ consistent x s y); [|lia].
  pose proof (cc_antisym _ consistent s x) as Hs. rewrite Hx in Hs.
  destruct (localeCompare x s); simpl in *; lia.
Qed.

End LetterOrder.

(** ** Facts about the classification *)

Lemma fold_push_file (resources : list resource) (acc : list fileInfo * list fileInfo) :
  fold_left push_file resources acc
  = (fst acc ++ List.filter is_numbered (map fileInfo_of resources),
     snd acc ++ List.filter (fun f => negb (is_numbered f)) (map fileInfo_of resources)).
Proof.
  revert acc. induction resources as [|r rs IH]; intros [ns ls]; simpl.
  - rewrite !app_nil_r. reflexivity.
  - rewrite IH. unfold push_file, is_numbered.
    destruct (starts_with_digit (displayName (fileInfo_of r))); simpl;
      rewrite <- ?app_assoc; reflexivity.
Qed.

(** The classified list is the sorted numbered entries followed by the
    sorted other entries. *)
Lemma pgnFiles_unfold (localeCompare : string -> string -> Z) (resources : list resource) :
  pgnFiles localeCompare resources
  = array_sort compare_numbers
      (List.filter is_numbered (map fileInfo_of resources))
    ++ array_sort (compare_letters localeCompare)
      (List.filter (fun f => negb (is_numbered f)) (map fileInfo_of resources)).
Proof. unfold pgnFiles. rewrite fold_push_file. reflexivity. Qed.

Lemma filter_all {A : Type} (P : A -> bool) (l : list A) :
  Forall (fun x => P x = true) l -> List.filter P l = l.
Proof.
  induction 1 as [|x l Hx _ IH]; simpl; [reflexivity|].
  rewrite Hx, IH. reflexivity.
Qed.

Lemma filter_none {A : Type} (P : A -> bool) (l : list A) :
  Forall (fun x => P x = false) l -> List.filter P l = [].
Proof.
  induction 1 as [|x l Hx _ IH]; simpl; [reflexivity|].
  rewrite Hx, IH. reflexivity.
Qed.

Lemma sorted_filter_forall {A : Type} (comparefn : A -> A -> number)
  (P : A -> bool) (Q : A -> Prop) (l : list A) :
  (forall x, In x l -> P x = true -> Q x) ->
  Forall Q (array_sort comparefn (List.filter P l)).
Proof.
  intros H. apply List.Forall_forall. intros x Hx.
  apply (Permutation_in _ (array_sort_perm comparefn _)) in Hx.
  apply List.filter_In in Hx as [Hin HP]. auto.
Qed.

Lemma Sorted_weaken {A : Type} (R R' : A -> A -> Prop) (l : list A) :
  (forall a b, R a b -> R' a b) -> Sorted R l -> Sorted R' l.
Proof.
  intros H. induction 1 as [|x l Hs IH Hd]; constructor; [exact IH|].
  destruct Hd; constructor; auto.
Qed.

Lemma StronglySorted_weaken {A : Type} (R R' : A -> A -> Prop) (l : list A) :
  (forall a b, In a l -> In b l -> R a b -> R' a b) ->
  StronglySorted R l -> StronglySorted R' l.
Proof.
  intros H Hs. induction Hs as [|x l Hs IH Hx]; constructor.
  - apply IH. intros a b Ha Hb. apply H; right; assumption.
  - apply List.Forall_forall. intros y Hy.
    apply H; [left; reflexivity | right; exact Hy |].
    rewrite List.Forall_forall in Hx. auto.
Qed.

Lemma fileInfo_of_resource_of (file : resource) :
  fileInfo_of (resource_of (fileInfo_of file)) = fileInfo_of file.
Proof. reflexivity. Qed.

Lemma map_fileInfo_of_resource_of (l : list fileInfo) :
  Forall (fun f => exists file, f = fileInfo_of file) l ->
  map fileInfo_of (map resource_of l) = l.
Proof.
  induction 1 as [|f l [file ->] _ IH]; simpl; [reflexivity|].
  rewrite IH, fileInfo_of_resource_of. reflexivity.
Qed.

(** The display name is what follows the last '/' of the public id. *)
Lemma split_cons (sep : ascii) (s : string) :
  exists seg rest, split sep s = seg :: rest.
Proof.
  induction s as [|c s [seg [rest IH]]]; simpl; [eauto|].
  destruct (Ascii.eqb c sep); [eauto|]. rewrite IH. eauto.
Qed.

Lemma split_no_sep (sep : ascii) (s : string) :
  has_char sep s = false -> split sep s = [s].
Proof.
  induction s as [|c s IH]; simpl; [reflexivity|].
  destruct (Ascii.eqb c sep); simpl; [discriminate|].
  intros H. rewrite (IH H). reflexivity.
Qed.

Lemma split_append (sep : ascii) (p n : string) :
  split sep (String.append p (String sep n)) = split sep p ++ split sep n.
Proof.
  induction p as [|c p IH]; simpl.
  - rewrite Ascii.eqb_refl. reflexivity.
  - destruct (Ascii.eqb c sep); rewrite IH; [reflexivity|].
    destruct (split_cons sep p) as [seg [rest ->]]. reflexivity.
Qed.

Lemma last_part_app (l : list string) (s : string) :
  last_part (l ++ [s]) = s.
Proof. unfold last_part. apply last_last. Qed.

Lemma displayName_last_segment (u folder name : string) :
  has_char "/" name = false ->
  displayName (fileInfo_of {| secure_url := u;
                              public_id := String.append folder (String "/" name) |})
  = name.
Proof.
  intros H. unfold fileInfo_of. simpl.
  rewrite split_append, (split_no_sep _ _ H). apply last_part_app.
Qed.

Lemma displayName_no_folder (u name : string) :
  has_char "/" name = false ->
  displayName (fileInfo_of {| secure_url := u; public_id := name |}) = name.
Proof.
  intros H. unfold fileInfo_of. simpl. rewrite (split_no_sep _ _ H). reflexivity.
Qed.

(** ** The comparison by character code is a consistent comparator *)

Lemma codeCompare_antisym (a b : string) :
  Z.sgn (codeCompare b a) = - Z.sgn (codeCompare a b).
Proof.
  revert b. induction a as [|x a IH]; intros [|y b]; simpl; try reflexivity.
  destruct (Z.of_nat (nat_of_ascii y) - Z.of_nat (nat_of_ascii x) =? 0) eqn:E1,
           (Z.of_nat (nat_of_ascii x) - Z.of_nat (nat_of_ascii y) =? 0) eqn:E2;
    rewrite ?Z.eqb_eq, ?Z.eqb_neq in *; try lia.
  apply IH.
Qed.

Lemma codeCompare_trans (a b c : string) :
  codeCompare a b <= 0 -> codeCompare b c <= 0 -> codeCompare a c <= 0.
Proof.
  revert b c. induction a as [|x a IH]; intros [|y b] [|z c]; simpl; try lia.
  destruct (Z.of_nat (nat_of_ascii x) - Z.of_nat (nat_of_ascii y) =? 0) eqn:E1,
           (Z.of_nat (nat_of_ascii y) - Z.of_nat (nat_of_ascii z) =? 0) eqn:E2,
           (Z.of_nat (nat_of_ascii x) - Z.of_nat (nat_of_ascii z) =? 0) eqn:E3;
    rewrite ?Z.eqb_eq, ?Z.eqb_neq in *; try lia.
  apply IH.
Qed.

Lemma codeCompare_consistent : consistent_comparator codeCompare.
Proof. split; [apply codeCompare_antisym | apply codeCompare_trans]. Qed.

(** ** The order of the classified list *)

Lemma number_key_leading_number (f : fileInfo) : leading_number f = number_key f.
Proof. apply leading_number_to_number. Qed.

Lemma classified_order_pgnFiles (localeCompare : string -> string -> Z)
  (resources : list resource) :
  consistent_comparator localeCompare ->
  classified_order localeCompare (map fileInfo_of resources)
    (pgnFiles localeCompare resources).
Proof.
  intros Hc. rewrite pgnFiles_unfold.
  set (infos := map fileInfo_of resources).
  set (ns := List.filter is_numbered infos).
  set (ls := List.filter (fun f => negb (is_numbered f)) infos).
  assert (Hnum : StronglySorted
            (fun a b => number_leb (number_key a) (number_key b) = true)
            (array_sort compare_numbers ns)).
  { apply Sorted_StronglySorted.
    - intros a b c. apply number_leb_trans.
    - eapply Sorted_weaken;
        [|apply (array_sort_sorted _ compare_numbers_asym ns)].
      intros a b Hab. rewrite <- !number_key_leading_number.
      apply compare_numbers_keeps, Hab. }
  exists (array_sort compare_numbers ns),
         (array_sort (compare_letters localeCompare) ls).
  split; [reflexivity|].
  split; [apply array_sort_perm|].
  split; [apply array_sort_perm|].
  split; [exact Hnum|].
  split.
  { apply Sorted_StronglySorted.
    - intros a b c. apply (cc_trans _ Hc).
    - eapply Sorted_weaken;
        [|apply (array_sort_sorted (compare_letters localeCompare)
                   (fun a b => compare_letters_asym localeCompare a b
                                 (consistent_asym localeCompare Hc)) ls)].
      intros a b Hab. apply compare_letters_keeps, Hab. }
  split.
  { intros k. apply array_sort_filter. intros a b Ha Hb.
    apply number_eqb_eq in Ha, Hb.
    apply compare_numbers_keeps. rewrite !number_key_leading_number, Ha, Hb.
    rewrite <- Ha, <- number_key_leading_number.
    apply number_leb_refl_key, leading_number_is_key. }
  split.
  { intros s. apply array_sort_filter. intros a b Ha Hb.
    apply Z.eqb_eq in Ha, Hb.
    apply compare_letters_keeps. eapply consistent_tie; eauto. }
  intros Hsmall.
  assert (Hin : forall f, In f (array_sort compare_numbers ns) ->
                          leading_int (displayName f) < 2 ^ 53).
  { intros f Hf.
    apply (Permutation_in _ (array_sort_perm compare_numbers ns)) in Hf.
    apply List.filter_In in Hf as [Hf _].
    rewrite List.Forall_forall in Hsmall. auto. }
  eapply StronglySorted_weaken; [|exact Hnum].
  intros a b Ha Hb. unfold number_key.
  rewrite !to_number_exact
    by (split; [apply leading_int_nonneg | auto]).
  simpl. apply Z.leb_le.
Qed.

Lemma example_numberFiles (u1 u2 u3 u4 : string) :
  array_sort compare_numbers
    (List.filter is_numbered (map fileInfo_of (example_resources u1 u2 u3 u4)))
  = [ {| url := u2; filename := "folderA/2_game"; displayName := "2_game" |};
      {| url := u1; filename := "folderA/10_game"; displayName := "10_game" |} ].
Proof. vm_compute. reflexivity. Qed.

Lemma example_letterFiles (u1 u2 u3 u4 : string) :
  List.filter (fun f => negb (is_numbered f))
    (map fileInfo_of (example_resources u1 u2 u3 u4))
  = [ {| url := u3; filename := "folderA/bishop"; displayName := "bishop" |};
      {| url := u4; filename := "folderA/apple"; displayName := "apple" |} ].
Proof. vm_compute. reflexivity. Qed.

Lemma example_order (localeCompare : string -> string -> Z) (u1 u2 u3 u4 : string) :
  0 < localeCompare "bishop" "apple" ->
  map displayName (pgnFiles localeCompare (example_resources u1 u2 u3 u4))
  = ["2_game"; "10_game"; "apple"; "bishop"].
Proof.
  intros H. rewrite pgnFiles_unfold, example_numberFiles, example_letterFiles.
  apply Z.ltb_lt in H.
  simpl array_sort. rewrite H. reflexivity.
Qed.

(** C2 (amended). For every list of asset descriptors the classified list
    is: first the descriptors whose display name (the last '/'-separated
    segment of the public id) begins with a decimal digit, in ascending
    order of the JavaScript number that [parseInt] reads from the longest
    leading run of digits, which is the base-10 integer of that run
    rounded to the nearest double (the integer itself below 2^53, and 0
    for a name without digits); then the other descriptors in ascending
    order of [localeCompare] on the display names; entries that tie keep
    their input order. When every leading integer is below 2^53 the
    numbered group is in ascending order of these integers, and the
    descriptors folderA/10_game, folderA/2_game, folderA/bishop,
    folderA/apple come out as 2_game, 10_game, apple, bishop. *)
Theorem pgnFiles_classified (localeCompare : string -> string -> Z)
  (resources : list resource) :
  consistent_comparator localeCompare ->
  classified_order localeCompare (map fileInfo_of resources)
    (pgnFiles localeCompare resources)
  /\ (forall f, leading_number f = number_key f)
  /\ (forall n, 0 <= n < 2 ^ 53 -> to_number n = Fin n)
  /\ (forall s, starts_with_digit s = false -> leading_int s = 0)
  /\ (forall u folder name, has_char "/" name = false ->
        displayName (fileInfo_of {| secure_url := u;
          public_id := String.append folder (String "/" name) |}) = name)
  /\ (forall u1 u2 u3 u4, localeCompare "apple" "bishop" < 0 ->
        map displayName (pgnFiles localeCompare (example_resources u1 u2 u3 u4))
        = ["2_game"; "10_game"; "apple"; "bishop"]).
Proof.
  intros Hc.
  split; [apply classified_order_pgnFiles, Hc|].
  split; [apply number_key_leading_number|].
  split; [apply to_number_exact|].
  split.
  { intros [|c s]; simpl; [reflexivity|]. unfold leading_int. simpl.
    intros ->. reflexivity. }
  split; [apply displayName_last_segment|].
  intros u1 u2 u3 u4 H. apply example_order.
  pose proof (cc_antisym _ Hc "apple" "bishop") as Hs.
  destruct (localeCompare "apple" "bishop"), (localeCompare "bishop" "apple");
    simpl in *; lia.
Qed.

Lemma pgnFiles_classified_witness :
  classified_order codeCompare
    (map fileInfo_of (map res ["b/10_x"; "apple"; "b/2_y"; "b/2_x"]))
    (pgnFiles codeCompare (map res ["b/10_x"; "apple"; "b/2_y"; "b/2_x"]))
  /\ map displayName (pgnFiles codeCompare (example_resources "a" "b" "c" "d"))
     = ["2_game"; "10_game"; "apple"; "bishop"].
Proof.
  pose proof (pgnFiles_classified codeCompare
                (map res ["b/10_x"; "apple"; "b/2_y"; "b/2_x"])
                codeCompare_consistent) as [H1 [_ [_ [_ [_ H2]]]]].
  split; [exact H1|].
  apply H2. vm_compute. reflexivity.
Defined.

(** C2 as stated fails: two numbered names whose leading integers differ
    but round to the same double tie under the comparator and keep their
    input order, so the larger integer comes first. *)
Lemma pgnFiles_integer_order_counterexample :
  let out := pgnFiles codeCompare
               [res "9007199254740993_a"; res "9007199254740992_b"] in
  map displayName out = ["9007199254740993_a"; "9007199254740992_b"]
  /\ Forall (fun f => is_numbered f = true) out
  /\ ~ StronglySorted
        (fun a b => leading_int (displayName a) <= leading_int (displayName b)) out.
Proof.
  assert (Hout : pgnFiles codeCompare
                   [res "9007199254740993_a"; res "9007199254740992_b"]
                 = map fileInfo_of
                     [res "9007199254740993_a"; res "9007199254740992_b"])
    by (vm_compute; reflexivity).
  cbv zeta. rewrite Hout.
  split; [vm_compute; reflexivity|].
  split; [repeat constructor|].
  intros H. inversion H as [|a l _ Hall]; subst.
  inversion Hall as [|b l' Hle _]; subst.
  revert Hle. vm_compute. intros Hle. apply Hle. reflexivity.
Qed.

(** ** Idempotence *)

(** C7. Classification and sorting is idempotent: classifying the
    descriptors of a classified list gives the same list in the same
    order. *)
Theorem pgnFiles_idempotent (localeCompare : string -> string -> Z)
  (resources : list resource) :
  (forall x y, 0 < localeCompare x y -> localeCompare y x <= 0) ->
  pgnFiles localeCompare (map resource_of (pgnFiles localeCompare resources))
  = pgnFiles localeCompare resources.
Proof.
  intros Hasym. rewrite (pgnFiles_unfold _ (map resource_of _)).
  rewrite map_fileInfo_of_resource_of.
  2:{ rewrite pgnFiles_unfold. apply Forall_app. split;
      apply sorted_filter_forall; intros f Hf _;
      apply in_map_iff in Hf as [file [<- _]]; eauto. }
  rewrite pgnFiles_unfold.
  set (ns := array_sort compare_numbers
               (List.filter is_numbered (map fileInfo_of resources))).
  set (ls := array_sort (compare_letters localeCompare)
               (List.filter (fun f => negb (is_numbered f))
                  (map fileInfo_of resources))).
  assert (Hns : Forall (fun f => is_numbered f = true) ns).
  { apply sorted_filter_forall. auto. }
  assert (Hls : Forall (fun f => is_numbered f = false) ls).
  { apply sorted_filter_forall. intros f _ H. apply negb_true_iff, H. }
  rewrite !List.filter_app.
  rewrite (filter_all _ _ Hns), (filter_none _ _ Hls), app_nil_r.
  rewrite (filter_none (fun f => negb (is_numbered f)) ns), (filter_all _ ls).
  - simpl. unfold ns, ls.
    rewrite (array_sort_idempotent _ compare_numbers_asym).
    rewrite (array_sort_idempotent (compare_letters localeCompare)
               (fun a b => compare_letters_asym localeCompare a b Hasym)).
    reflexivity.
  - eapply List.Forall_impl; [|exact Hls]. intros f ->. reflexivity.
  - eapply List.Forall_impl; [|exact Hns]. intros f ->. reflexivity.
Qed.

Lemma pgnFiles_idempotent_witness :
  pgnFiles codeCompare
    (map resource_of (pgnFiles codeCompare (example_resources "a" "b" "c" "d")))
  = pgnFiles codeCompare (example_resources "a" "b" "c" "d").
Proof.
  apply pgnFiles_idempotent.
  apply (consistent_asym codeCompare codeCompare_consistent).
Defined.

(** ** Facts about the cache store *)

Section CacheFacts.
Implicit Types (c : NodeCache.data) (key k : string) (now : Z).

Lemma get_cache key now c :
  fst (NodeCache.get key now c)
  = match c !! key with
    | Some d => if NodeCache.expired d now then delete key c else c
    | None => c
    end.
Proof.
  unfold NodeCache.get, NodeCache._check.
  destruct (c !! key) as [d|]; [|reflexivity].
  destruct (NodeCache.expired d now); reflexivity.
Qed.

Lemma get_value key now c :
  snd (NodeCache.get key now c)
  = match c !! key with
    | Some d => if NodeCache.expired d now then None else Some (NodeCache.v d)
    | None => None
    end.
Proof.
  unfold NodeCache.get, NodeCache._check.
  destruct (c !! key) as [d|]; [|reflexivity].
  destruct (NodeCache.expired d now); reflexivity.
Qed.

Lemma has_cache key now c :
  fst (NodeCache.has key now c) = fst (NodeCache.get key now c).
Proof.
  unfold NodeCache.has, NodeCache.get, NodeCache._check.
  destruct (c !! key) as [d|]; [|reflexivity].
  destruct (NodeCache.expired d now); reflexivity.
Qed.

Lemma has_value key now c :
  snd (NodeCache.has key now c) = bool_decide (is_Some (snd (NodeCache.get key now c))).
Proof.
  unfold NodeCache.has, NodeCache.get, NodeCache._check.
  destruct (c !! key) as [d|]; [|reflexivity].
  destruct (NodeCache.expired d now); reflexivity.
Qed.

(** A lookup that finds nothing leaves no entry under the key. *)
Lemma get_none_absent key now c :
  snd (NodeCache.get key now c) = None ->
  fst (NodeCache.get key now c) !! key = None.
Proof.
  rewrite get_value, get_cache. destruct (c !! key) as [d|] eqn:Hd; [|auto].
  destruct (NodeCache.expired d now); [|discriminate].
  intros _. apply lookup_delete_eq.
Qed.

(** A lookup changes the store at most by dropping the entry it found
    run out. *)
Lemma get_frame key now c k :
  fst (NodeCache.get key now c) !! k = c !! k
  \/ (k = key /\ fst (NodeCache.get key now c) !! k = None
      /\ exists d, c !! k = Some d /\ NodeCache.expired d now = true).
Proof.
  rewrite get_cache. destruct (c !! key) as [d|] eqn:Hd; [|auto].
  destruct (NodeCache.expired d now) eqn:He; [|auto].
  destruct (decide (k = key)) as [->|Hne].
  - right. rewrite lookup_delete_eq. eauto.
  - left. apply lookup_delete_ne. congruence.
Qed.

Lemma expired_later (d : NodeCache.wrapped) now t :
  now <= t -> NodeCache.expired d now = true -> NodeCache.expired d t = true.
Proof.
  unfold NodeCache.expired. intros Ht H.
  apply andb_true_iff in H as [H0 H1]. rewrite H0. simpl.
  apply Z.ltb_lt in H1. apply Z.ltb_lt. lia.
Qed.

(** A store that differs from another one only by entries that have run
    out answers every later lookup alike. *)
Lemma same_but_expired_get now c' c k t :
  same_but_expired now c' c -> now <= t ->
  snd (NodeCache.get k t c') = snd (NodeCache.get k t c)
  /\ snd (NodeCache.has k t c') = snd (NodeCache.has k t c).
Proof.
  intros H Ht. rewrite !has_value, !get_value.
  destruct (H k) as [->|[-> [d [-> He]]]]; [auto|].
  rewrite (expired_later d now t Ht He). auto.
Qed.

Lemma get_same_but_expired key now c :
  same_but_expired now (fst (NodeCache.get key now c)) c.
Proof.
  intros k. destruct (get_frame key now c k) as [H|[_ [H1 H2]]]; auto.
Qed.

Lemma set_get key (value : list fileInfo) (t0 t1 : Z) c :
  0 <= t0 -> t1 <= t0 + NodeCache.stdTTL * 1000 ->
  NodeCache.get key t1 (NodeCache.set key value t0 c)
  = (NodeCache.set key value t0 c, Some value).
Proof.
  intros H0 H1. unfold NodeCache.get, NodeCache.set, NodeCache._check.
  rewrite lookup_insert_eq.
  assert (He : NodeCache.expired (NodeCache._wrap value t0) t1 = false).
  { unfold NodeCache.expired, NodeCache._wrap. simpl.
    apply andb_false_iff. right. apply Z.ltb_ge. exact H1. }
  rewrite He. reflexivity.
Qed.

Lemma set_get_expired key (value : list fileInfo) (t0 t1 : Z) c :
  0 <= t0 -> t0 + NodeCache.stdTTL * 1000 < t1 ->
  NodeCache.get key t1 (NodeCache.set key value t0 c)
  = (delete key c, None).
Proof.
  intros H0 H1. unfold NodeCache.get, NodeCache.set, NodeCache._check.
  rewrite lookup_insert_eq.
  assert (He : NodeCache.expired (NodeCache._wrap value t0) t1 = true).
  { unfold NodeCache.expired, NodeCache._wrap, NodeCache.stdTTL in *. simpl.
    apply andb_true_iff. split.
    - apply negb_true_iff, Z.eqb_neq. lia.
    - apply Z.ltb_lt. exact H1. }
  rewrite He, delete_insert_eq. reflexivity.
Qed.

(** The sweep drops only entries that have run out. *)
Lemma checkData_same_but_expired now c :
  same_but_expired now (NodeCache._checkData now c) c.
Proof.
  intros k. unfold NodeCache._checkData.
  destruct (c !! k) as [d|] eqn:Hd.
  - destruct (NodeCache.expired d now) eqn:He.
    + right. split; [|eauto].
      apply map_lookup_filter_None. right. intros d' Hd'. simpl. congruence.
    + left. apply map_lookup_filter_Some. auto.
  - left. apply map_lookup_filter_None. left. exact Hd.
Qed.

End CacheFacts.

(** C4. A list stored under a key is returned by a lookup that follows
    at once, and by every lookup up to 12 hours after the store; from
    then on [get] answers absent and [has] answers false, until the key
    is stored again. *)
Theorem cache_round_trip_and_expiry (c : NodeCache.data) (k : string)
  (L : list fileInfo) (t0 t1 : Z) :
  0 <= t0 -> t0 <= t1 ->
  NodeCache.stdTTL * 1000 = 12 * 60 * 60 * 1000
  /\ snd (NodeCache.get k t0 (NodeCache.set k L t0 c)) = Some L
  /\ (t1 <= t0 + 12 * 60 * 60 * 1000 ->
      snd (NodeCache.get k t1 (NodeCache.set k L t0 c)) = Some L
      /\ snd (NodeCache.has k t1 (NodeCache.set k L t0 c)) = true)
  /\ (t0 + 12 * 60 * 60 * 1000 < t1 ->
      snd (NodeCache.get k t1 (NodeCache.set k L t0 c)) = None
      /\ snd (NodeCache.has k t1 (NodeCache.set k L t0 c)) = false).
Proof.
  intros H0 H1.
  assert (Httl : NodeCache.stdTTL * 1000 = 12 * 60 * 60 * 1000) by reflexivity.
  split; [exact Httl|].
  split; [rewrite set_get; [reflexivity | lia | rewrite Httl; lia]|].
  split; intros H.
  - rewrite has_value, set_get; [auto | lia | rewrite Httl; lia].
  - rewrite has_value, set_get_expired; [auto | lia | rewrite Httl; lia].
Qed.

Lemma cache_round_trip_and_expiry_witness :
  snd (NodeCache.get "beginner" 1000
         (NodeCache.set "beginner" (pgnFiles codeCompare [res "lvl/1_a"]) 1000 ∅))
  = Some (pgnFiles codeCompare [res "lvl/1_a"]).
Proof.
  apply (cache_round_trip_and_expiry ∅ "beginner"
           (pgnFiles codeCompare [res "lvl/1_a"]) 1000 1000); lia.
Defined.

(** ** GET /api/pgn-files *)

Lemma all_word_chars_false (s : string) (ch : ascii) :
  In ch (list_ascii_of_string s) -> is_word_char ch = false ->
  all_word_chars s = false.
Proof.
  induction s as [|c s IH]; simpl; [tauto|].
  intros [->|Hin] Hch.
  - rewrite Hch. reflexivity.
  - rewrite (IH Hin Hch). apply andb_false_r.
Qed.

Lemma level_format_bad (s : string) (ch : ascii) :
  In ch (list_ascii_of_string s) -> is_word_char ch = false ->
  level_format_ok s = false.
Proof.
  intros Hin Hch. destruct s; [reflexivity|].
  unfold level_format_ok. eapply all_word_chars_false; eauto.
Qed.

(** C3. A request whose level is absent (or empty), or holds a character that is
    not a letter, a digit or an underscore (as "bad key!" does), is
    answered with status 400; the cache is not touched and no search is
    issued. *)
Theorem pgn_files_validation (localeCompare : string -> string -> Z)
  (level : option string) (u : upstream) (now : Z) (c : NodeCache.data) :
  truthy level = false
  \/ (exists s ch, level = Some s /\ In ch (list_ascii_of_string s)
                   /\ is_word_char ch = false) ->
  exists r,
    status r = 400
    /\ pgn_files_start level now c = (c, [Send r], None)
    /\ pgn_files localeCompare level u now c = (c, [Send r])
    /\ List.filter is_search (snd (pgn_files localeCompare level u now c)) = [].
Proof.
  intros [Hl|[s [ch [-> [Hin Hch]]]]].
  - exists level_required.
    destruct level as [[|a s]|]; [|discriminate|]; repeat split.
  - pose proof (level_format_bad s ch Hin Hch) as Hbad.
    destruct s as [|a s].
    + exists level_required. repeat split.
    + exists invalid_level_format.
      unfold pgn_files, pgn_files_start. rewrite Hbad. repeat split.
Qed.

Lemma pgn_files_validation_witness :
  exists r,
    status r = 400
    /\ pgn_files_start (Some "bad key!") 0 ∅ = (∅, [Send r], None)
    /\ pgn_files codeCompare (Some "bad key!") Never 0 ∅ = (∅, [Send r])
    /\ List.filter is_search
         (snd (pgn_files codeCompare (Some "bad key!") Never 0 ∅)) = [].
Proof.
  apply (pgn_files_validation codeCompare (Some "bad key!") Never 0 ∅).
  right. exists "bad key!", " "%char. split; [reflexivity|].
  split; [simpl; tauto | reflexivity].
Defined.

Section PgnFilesFacts.
Variable localeCompare : string -> string -> Z.
Implicit Types (c : NodeCache.data) (level k : string) (now : Z).

Lemma pgn_files_catch_unfold level now c :
  pgn_files_catch level now c
  = (fst (NodeCache.get level now c),
     match snd (NodeCache.get level now c) with
     | Some files =>
         [Log ErrorFetching; Log (ServingStale level); Send (stale_response files)]
     | None => [Log ErrorFetching; Send failed_to_fetch]
     end).
Proof.
  unfold pgn_files_catch. destruct (NodeCache.get level now c) as [c' [files|]];
    reflexivity.
Qed.

Lemma pgn_files_resume_failed level (s : settled) now c :
  failed s = true ->
  pgn_files_resume localeCompare level s now c = pgn_files_catch level now c.
Proof. destruct s as [[resources|]|]; [discriminate | reflexivity | reflexivity]. Qed.


Lemma pgn_files_catch_missing level now c :
  snd (NodeCache.get level now c) = None ->
  pgn_files_catch level now c
  = (fst (NodeCache.get level now c), [Log ErrorFetching; Send failed_to_fetch]).
Proof. intros H. rewrite pgn_files_catch_unfold, H. reflexivity. Qed.

Lemma pgn_files_catch_frame level now c :
  same_but_expired now (fst (pgn_files_catch level now c)) c.
Proof. rewrite pgn_files_catch_unfold. apply get_same_but_expired. Qed.


Lemma pgn_files_start_unfold level now c :
  level_format_ok level = true ->
  pgn_files_start (Some level) now c
  = (fst (NodeCache.get level now c),
     match snd (NodeCache.get level now c) with
     | Some files => [Log (ServingCached level); Send (cached_response files)]
     | None => [Log (FetchingFromCloudinary level);
                Execute (search_expression level) 500]
     end,
     match snd (NodeCache.get level now c) with
     | Some _ => None
     | None => Some level
     end).
Proof.
  intros Hok. unfold pgn_files_start. destruct level as [|a level]; [discriminate|].
  rewrite Hok. simpl negb. cbv iota.
  destruct (NodeCache.get (String a level) now c) as [c' [files|]]; reflexivity.
Qed.

(** The level the handler waits for has no entry left in the cache. *)
Lemma pgn_files_start_waiting (level : option string) now c k :
  snd (pgn_files_start level now c) = Some k ->
  level = Some k /\ level_format_ok k = true
  /\ snd (NodeCache.get k now c) = None
  /\ pgn_files_start level now c
     = (fst (NodeCache.get k now c),
        [Log (FetchingFromCloudinary k); Execute (search_expression k) 500],
        Some k).
Proof.
  destruct level as [[|a s]|]; try discriminate.
  destruct (level_format_ok (String a s)) eqn:Hok.
  - rewrite (pgn_files_start_unfold _ now c Hok). simpl.
    destruct (snd (NodeCache.get (String a s) now c)) eqn:Hg; [discriminate|].
    intros [= <-]. auto.
  - unfold pgn_files_start. rewrite Hok. discriminate.
Qed.

(** A level that is cached and valid is served from the cache, with no
    search. *)
Lemma pgn_files_cached level (u : upstream) now c (files : list fileInfo) :
  level_format_ok level = true ->
  snd (NodeCache.get level now c) = Some files ->
  pgn_files localeCompare (Some level) u now c
  = (c, [Log (ServingCached level); Send (cached_response files)]).
Proof.
  intros Hok Hg. unfold pgn_files.
  rewrite (pgn_files_start_unfold level now c Hok), Hg. f_equal.
  rewrite get_cache. rewrite get_value in Hg.
  destruct (c !! level) as [d|]; [|reflexivity].
  destruct (NodeCache.expired d now); [discriminate | reflexivity].
Qed.

(** A search that delivers its resources before the deadline: the
    classified list is stored under the level and sent. *)
Lemma pgn_files_fresh (level : option string) (after : Z)
  (resources : list resource) now c k :
  snd (pgn_files_start level now c) = Some k ->
  after < 8000 ->
  pgn_files localeCompare level (Settles after (Fulfilled (Some resources))) now c
  = (NodeCache.set k (pgnFiles localeCompare resources) (now + after)
       (fst (NodeCache.get k now c)),
     [Log (FetchingFromCloudinary k); Execute (search_expression k) 500;
      Send (fresh_response (pgnFiles localeCompare resources));
      Log (SuccessfullyServed (List.length (pgnFiles localeCompare resources)) k)]).
Proof.
  intros Hw Hafter. apply pgn_files_start_waiting in Hw as [-> [Hok [Hg Hs]]].
  unfold pgn_files. rewrite Hs. unfold race.
  apply Z.ltb_lt in Hafter. rewrite Hafter. reflexivity.
Qed.


(** Without another handler in between, a search that fails always ends
    in the answer 500: the lookup in the [catch] block repeats the
    lookup that has just found nothing. *)
Lemma pgn_files_failure_isolated (level : option string) (u : upstream) now c k :
  snd (pgn_files_start level now c) = Some k ->
  failed (fst (race u)) = true ->
  pgn_files localeCompare level u now c
  = (fst (NodeCache.get k now c),
     [Log (FetchingFromCloudinary k); Execute (search_expression k) 500;
      Log ErrorFetching; Send failed_to_fetch]).
Proof.
  intros Hw Hf. apply pgn_files_start_waiting in Hw as [-> [Hok [Hg Hs]]].
  unfold pgn_files. rewrite Hs.
  destruct (race u) as [s elapsed]. simpl in Hf.
  rewrite (pgn_files_resume_failed _ _ _ _ Hf).
  pose proof (get_none_absent k now c Hg) as Habs.
  rewrite pgn_files_catch_missing.
  - rewrite (get_cache k (now + elapsed)), Habs. reflexivity.
  - rewrite get_value, Habs. reflexivity.
Qed.

(** A request that does not end in a fresh answer changes the cache at
    most by dropping the entry of its level, and only when that entry
    has run out. *)
Lemma pgn_files_failure_frame (level : option string) (u : upstream) now c :
  failed (fst (race u)) = true ->
  fst (pgn_files localeCompare level u now c) = c
  \/ exists k, level = Some k
       /\ fst (pgn_files localeCompare level u now c) = fst (NodeCache.get k now c).
Proof.
  intros Hf.
  destruct (snd (pgn_files_start level now c)) as [k|] eqn:Hw.
  - right. exists k. rewrite (pgn_files_failure_isolated level u now c k Hw Hf).
    apply pgn_files_start_waiting in Hw as [-> _]. auto.
  - unfold pgn_files.
    destruct (pgn_files_start level now c) as [[c' events] w] eqn:Hs.
    simpl in Hw. subst w. simpl.
    destruct level as [[|a s]|]; try (injection Hs as <- _; auto).
    destruct (level_format_ok (String a s)) eqn:Hok.
    + right. exists (String a s). split; [reflexivity|].
      rewrite (pgn_files_start_unfold _ now c Hok) in Hs. injection Hs as <- _ _.
      reflexivity.
    + unfold pgn_files_start in Hs. rewrite Hok in Hs. injection Hs as <- _. auto.
Qed.

End PgnFilesFacts.

(** C1, at the input on which the fallback is missed. The list [L] is
    stored for the level "beginner" at time 0; a request for the level
    comes one millisecond after the 12 hours have passed and its search
    fails, by rejection, by the deadline or by a value without resources.
    The lookup at the start drops the entry, the lookup in the [catch]
    block finds nothing, and the answer is 500, not [L]. *)
Theorem pgn_files_expired_entry_not_served :
  let L := pgnFiles codeCompare (example_resources "a" "b" "c" "d") in
  let c := NodeCache.set "beginner" L 0 ∅ in
  c !! "beginner" = Some {| NodeCache.t := 43200000; NodeCache.v := L |}
  /\ Forall
       (fun u =>
          pgn_files codeCompare (Some "beginner") u 43200001 c
          = (∅, [Log (FetchingFromCloudinary "beginner");
                 Execute "folder:beginner AND format:pgn" 500;
                 Log ErrorFetching; Send failed_to_fetch]))
       [Settles 120 Rejected; Never; Settles 9000 (Fulfilled (Some []));
        Settles 120 (Fulfilled None)].
Proof.
  intros L c. split; [apply lookup_insert_eq|].
  assert (Hg : NodeCache.get "beginner" 43200001 c = (∅, None)).
  { unfold c. rewrite set_get_expired by (unfold NodeCache.stdTTL; lia).
    rewrite delete_empty. reflexivity. }
  assert (Hw : snd (pgn_files_start (Some "beginner") 43200001 c) = Some "beginner").
  { rewrite pgn_files_start_unfold by reflexivity. rewrite Hg. reflexivity. }
  repeat constructor;
    rewrite (pgn_files_failure_isolated codeCompare _ _ _ _ _ Hw eq_refl), Hg;
    reflexivity.
Qed.

(** C5, at the input on which an entry is lost. The list [L] is stored
    for the level "beginner" at time 0; a request for the level comes
    one millisecond after the 12 hours have passed and its search fails,
    by rejection, by the deadline or by a value without resources. The
    entry was there when the request came; the lookup at the start of
    the handler removes it, so the request that failed leaves the cache
    without the entry, and a later failure has nothing to fall back on.
    This is the loss that makes the fallback of C1 miss. *)
Theorem failed_fetch_drops_expired_entry :
  let L := pgnFiles codeCompare (example_resources "a" "b" "c" "d") in
  let c := NodeCache.set "beginner" L 0 ∅ in
  c !! "beginner" = Some {| NodeCache.t := 43200000; NodeCache.v := L |}
  /\ Forall
       (fun u =>
          failed (fst (race u)) = true
          /\ fst (pgn_files codeCompare (Some "beginner") u 43200001 c)
               !! "beginner" = None
          /\ fst (pgn_files codeCompare (Some "beginner") u 43200001 c) <> c)
       [Settles 120 Rejected; Never; Settles 120 (Fulfilled None)].
Proof.
  intros L c.
  assert (Hc : c !! "beginner"
               = Some {| NodeCache.t := 43200000; NodeCache.v := L |})
    by apply lookup_insert_eq.
  split; [exact Hc|].
  assert (Hg : NodeCache.get "beginner" 43200001 c = (∅, None)).
  { unfold c. rewrite set_get_expired by (unfold NodeCache.stdTTL; lia).
    rewrite delete_empty. reflexivity. }
  assert (Hw : snd (pgn_files_start (Some "beginner") 43200001 c) = Some "beginner").
  { rewrite pgn_files_start_unfold by reflexivity. rewrite Hg. reflexivity. }
  assert (Hne : (∅ : NodeCache.data) <> c).
  { intros He. rewrite <- He, lookup_empty in Hc. discriminate. }
  assert (Hrun : forall u, failed (fst (race u)) = true ->
            fst (pgn_files codeCompare (Some "beginner") u 43200001 c) = ∅).
  { intros u Hf.
    rewrite (pgn_files_failure_isolated codeCompare _ u _ _ _ Hw Hf), Hg.
    reflexivity. }
  repeat (apply List.Forall_cons; [split; [reflexivity|];
            rewrite Hrun by reflexivity; split; [apply lookup_empty | exact Hne]|]).
  apply List.Forall_nil.
Qed.

(** What a request whose fetch fails does to the cache, exactly: it
    writes nothing, and the only entry it can remove is the entry of its
    own level, which it removes when, and only when, that entry has run
    out at the lookup. *)
Lemma failed_fetch_cache (localeCompare : string -> string -> Z)
  (level : option string) (u : upstream) (now : Z) (c : NodeCache.data) :
  failed (fst (race u)) = true ->
  fst (pgn_files localeCompare level u now c)
  = match level with
    | Some k =>
        if level_format_ok k then
          match c !! k with
          | Some d => if NodeCache.expired d now then delete k c else c
          | None => c
          end
        else c
    | None => c
    end.
Proof.
  intros Hf. destruct level as [k|]; [|reflexivity].
  destruct (level_format_ok k) eqn:Hok.
  - rewrite <- get_cache.
    destruct (snd (pgn_files_start (Some k) now c)) as [k'|] eqn:Hw.
    + rewrite (pgn_files_failure_isolated localeCompare _ u now c k' Hw Hf).
      apply pgn_files_start_waiting in Hw as [[= <-] _]. reflexivity.
    + unfold pgn_files.
      rewrite (pgn_files_start_unfold k now c Hok) in *. simpl in Hw.
      destruct (snd (NodeCache.get k now c)); [reflexivity | discriminate].
  - unfold pgn_files, pgn_files_start. destruct k as [|a k]; [reflexivity|].
    rewrite Hok. reflexivity.
Qed.

(** The same for the [catch] block run on any cache, as it is when other
    handlers have run while the search was awaited: an entry of the
    level that is still valid stays, with every other entry. *)
Lemma pgn_files_catch_cache (level : string) (now : Z) (c : NodeCache.data) :
  fst (pgn_files_catch level now c)
  = match c !! level with
    | Some d => if NodeCache.expired d now then delete level c else c
    | None => c
    end.
Proof. rewrite pgn_files_catch_unfold. apply get_cache. Qed.

(** ** POST /api/clear-cache *)

Lemma clear_cache_unauthorized (ADMIN_API_KEY : option string)
  (req : clear_cache_body) (c : NodeCache.data) :
  apiKey req <> ADMIN_API_KEY ->
  clear_cache ADMIN_API_KEY req c = (c, [Send unauthorized]).
Proof.
  intros H. unfold clear_cache. rewrite bool_decide_eq_false_2 by exact H.
  reflexivity.
Qed.

Lemma clear_cache_level (ADMIN_API_KEY : option string)
  (req : clear_cache_body) (c : NodeCache.data) (k : string) :
  apiKey req = ADMIN_API_KEY -> level req = Some k -> k <> "" ->
  clear_cache ADMIN_API_KEY req c
  = (delete k c,
     [Log (CacheCleared k);
      Send {| status := 200; headers := [];
              body := Success (String.append "Cache cleared for " k) |}]).
Proof.
  intros H Hl Hk. unfold clear_cache. rewrite bool_decide_eq_true_2 by exact H.
  rewrite Hl. destruct k; [congruence | reflexivity].
Qed.

Lemma clear_cache_all (ADMIN_API_KEY : option string)
  (req : clear_cache_body) (c : NodeCache.data) :
  apiKey req = ADMIN_API_KEY -> truthy (level req) = false ->
  clear_cache ADMIN_API_KEY req c
  = (∅,
     [Log AllCacheCleared;
      Send {| status := 200; headers := []; body := Success "All cache cleared" |}]).
Proof.
  intros H Hl. unfold clear_cache. rewrite bool_decide_eq_true_2 by exact H.
  destruct (level req) as [[|a k]|]; try reflexivity. discriminate.
Qed.

(** C8. Clearing the cache requires the [apiKey] of the request to equal
    the configured secret; otherwise the answer is 401 and the cache is
    unchanged. With the right key and a level, the entry of that level
    is removed and the entry of every other key is unchanged; with the
    right key and no level, every entry is removed. An empty level
    counts as no level, as in the other handlers. *)
Theorem clear_cache_effect (ADMIN_API_KEY : option string)
  (req : clear_cache_body) (c : NodeCache.data) :
  (apiKey req <> ADMIN_API_KEY ->
     clear_cache ADMIN_API_KEY req c = (c, [Send unauthorized])
     /\ status unauthorized = 401)
  /\ (apiKey req = ADMIN_API_KEY ->
      forall k, level req = Some k -> k <> "" ->
        let c' := fst (clear_cache ADMIN_API_KEY req c) in
        c' !! k = None
        /\ (forall k', k' <> k -> c' !! k' = c !! k')
        /\ exists r, status r = 200
             /\ snd (clear_cache ADMIN_API_KEY req c) = [Log (CacheCleared k); Send r])
  /\ (apiKey req = ADMIN_API_KEY -> truthy (level req) = false ->
      let c' := fst (clear_cache ADMIN_API_KEY req c) in
      c' = ∅ /\ (forall k, c' !! k = None)
      /\ exists r, status r = 200
           /\ snd (clear_cache ADMIN_API_KEY req c) = [Log AllCacheCleared; Send r]).
Proof.
  split; [|split].
  - intros H. split; [apply clear_cache_unauthorized, H | reflexivity].
  - intros H k Hl Hk. rewrite (clear_cache_level _ _ _ k H Hl Hk). simpl.
    split; [apply lookup_delete_eq|].
    split; [intros k' Hne; apply lookup_delete_ne; congruence|].
    eexists. split; [|reflexivity]. reflexivity.
  - intros H Hl. rewrite (clear_cache_all _ _ _ H Hl). simpl.
    split; [reflexivity|]. split; [intros k; apply lookup_empty|].
    eexists. split; [|reflexivity]. reflexivity.
Qed.

Lemma clear_cache_effect_witness :
  let c := NodeCache.set "beginner" [] 0 (NodeCache.set "master" [] 0 ∅) in
  (clear_cache (Some "s3cret") {| level := Some "beginner"; apiKey := Some "guess" |} c
   = (c, [Send unauthorized]) /\ status unauthorized = 401)
  /\ (let c' := fst (clear_cache (Some "s3cret")
                      {| level := Some "beginner"; apiKey := Some "s3cret" |} c) in
      c' !! "beginner" = None
      /\ (forall k', k' <> "beginner" -> c' !! k' = c !! k')
      /\ exists r, status r = 200
           /\ snd (clear_cache (Some "s3cret")
                     {| level := Some "beginner"; apiKey := Some "s3cret" |} c)
              = [Log (CacheCleared "beginner"); Send r])
  /\ (let c' := fst (clear_cache (Some "s3cret")
                      {| level := None; apiKey := Some "s3cret" |} c) in
      c' = ∅ /\ (forall k, c' !! k = None)
      /\ exists r, status r = 200
           /\ snd (clear_cache (Some "s3cret")
                     {| level := None; apiKey := Some "s3cret" |} c)
              = [Log AllCacheCleared; Send r]).
Proof.
  intros c. split; [|split].
  - apply (clear_cache_effect (Some "s3cret")
             {| level := Some "beginner"; apiKey := Some "guess" |} c).
    simpl. discriminate.
  - apply (clear_cache_effect (Some "s3cret")
             {| level := Some "beginner"; apiKey := Some "s3cret" |} c);
      [reflexivity | reflexivity | discriminate].
  - apply (clear_cache_effect (Some "s3cret")
             {| level := None; apiKey := Some "s3cret" |} c); reflexivity.
Defined.

(** C10. The check is a strict equality between the [apiKey] of the
    request and the configured secret: when the secret is not configured
    and the request carries no [apiKey], the two are equal, and the
    request deletes a key or flushes the cache without any credential. *)
Theorem clear_cache_without_secret (c : NodeCache.data) (k : string) :
  k <> "" ->
  (clear_cache None {| level := Some k; apiKey := None |} c
   = (delete k c,
      [Log (CacheCleared k);
       Send {| status := 200; headers := [];
               body := Success (String.append "Cache cleared for " k) |}]))
  /\ (clear_cache None {| level := None; apiKey := None |} c
      = (∅,
         [Log AllCacheCleared;
          Send {| status := 200; headers := [];
                  body := Success "All cache cleared" |}]))
  /\ (forall secret,
        clear_cache (Some secret) {| level := Some k; apiKey := None |} c
        = (c, [Send unauthorized])).
Proof.
  intros Hk. split; [|split].
  - apply clear_cache_level; auto.
  - apply clear_cache_all; auto.
  - intros secret. apply clear_cache_unauthorized. discriminate.
Qed.

Lemma clear_cache_without_secret_witness :
  let c := NodeCache.set "beginner" [] 0 ∅ in
  fst (clear_cache None {| level := Some "beginner"; apiKey := None |} c)
  = delete "beginner" c
  /\ fst (clear_cache None {| level := None; apiKey := None |} c) = ∅.
Proof.
  intros c.
  destruct (clear_cache_without_secret c "beginner") as [H1 [H2 _]];
    [discriminate|].
  rewrite H1, H2. split; reflexivity.
Defined.

(** ** GET /api/prefetch *)

Section PrefetchFacts.
Variable localeCompare : string -> string -> Z.
Implicit Types (c : NodeCache.data) (level k : string) (now : Z).

Lemma same_but_expired_refl now c : same_but_expired now c c.
Proof. intros k. auto. Qed.

Lemma same_but_expired_trans now c2 c1 c :
  same_but_expired now c2 c1 -> same_but_expired now c1 c ->
  same_but_expired now c2 c.
Proof.
  intros H21 H10 k.
  destruct (H21 k) as [->|[H2 [d [H1 He]]]]; [apply H10|].
  destruct (H10 k) as [H|[H _]]; [|congruence].
  right. split; [exact H2|]. exists d. split; [congruence | exact He].
Qed.

Lemma has_same_but_expired level now c :
  same_but_expired now (fst (NodeCache.has level now c)) c.
Proof. rewrite has_cache. apply get_same_but_expired. Qed.

(** Whether a level is present does not depend on the checks made for
    other levels at the same moment. *)
Lemma has_after_same now c' c k :
  same_but_expired now c' c ->
  snd (NodeCache.has k now c') = snd (NodeCache.has k now c).
Proof. intros H. apply (same_but_expired_get now c' c k now H). lia. Qed.

Lemma prefetch_one_start_unfold level now c :
  prefetch_one_start level now c
  = (fst (NodeCache.has level now c),
     if snd (NodeCache.has level now c) then [Log (AlreadyInCache level)]
     else [Log (BackgroundPrefetching level); Execute (search_expression level) 500],
     if snd (NodeCache.has level now c) then [] else [level]).
Proof.
  unfold prefetch_one_start.
  destruct (NodeCache.has level now c) as [c' [|]]; reflexivity.
Qed.

Lemma prefetch_each_spec (levelsToPrefetch : list string) now c :
  let '(c', events, waiting) := prefetch_each levelsToPrefetch now c in
  waiting = List.filter (absent_at now c) levelsToPrefetch
  /\ List.filter is_search events
     = map (fun level => Execute (search_expression level) 500) waiting
  /\ List.filter is_send events = []
  /\ same_but_expired now c' c.
Proof.
  revert c. induction levelsToPrefetch as [|level rest IH]; intros c.
  - simpl. repeat split. apply same_but_expired_refl.
  - simpl prefetch_each. rewrite prefetch_one_start_unfold.
    pose proof (has_same_but_expired level now c) as Hc1.
    set (c1 := fst (NodeCache.has level now c)) in *.
    specialize (IH c1).
    destruct (prefetch_each rest now c1) as [[c2 events'] waiting'].
    destruct IH as [Hw [Hs [Hn Hc2]]].
    assert (Hext : List.filter (absent_at now c1) rest
                   = List.filter (absent_at now c) rest).
    { apply List.filter_ext. intros k. unfold absent_at.
      rewrite (has_after_same now c1 c k Hc1). reflexivity. }
    rewrite Hext in Hw. simpl List.filter. unfold absent_at at 1.
    destruct (snd (NodeCache.has level now c)); simpl;
      rewrite ?Hs, ?Hn, Hw; repeat split;
      eapply same_but_expired_trans; eauto.
Qed.

Lemma prefetch_resume_failed level (s : settled) now c :
  failed s = true ->
  prefetch_resume localeCompare level s now c = (c, [Log (PrefetchError level)]).
Proof. destruct s as [[resources|]|]; [discriminate | reflexivity | reflexivity]. Qed.

Lemma prefetch_resume_other level (s : settled) now c k :
  k <> level ->
  fst (prefetch_resume localeCompare level s now c) !! k = c !! k.
Proof.
  intros Hne. destruct s as [[resources|]|]; simpl; try reflexivity.
  unfold NodeCache.set. apply lookup_insert_ne. congruence.
Qed.

Lemma prefetch_background_failed
  (before after : list (string * settled * Z)) level (s : settled) now c :
  failed s = true ->
  fst (prefetch_background localeCompare (before ++ (level, s, now) :: after) c)
  = fst (prefetch_background localeCompare (before ++ after) c).
Proof.
  intros Hf. revert c. induction before as [|[[l0 s0] t0] before IH]; intros c.
  - simpl. rewrite (prefetch_resume_failed _ _ _ _ Hf).
    destruct (prefetch_background localeCompare after c); reflexivity.
  - simpl. destruct (prefetch_resume localeCompare l0 s0 t0 c) as [c1 ev1].
    specialize (IH c1).
    destruct (prefetch_background localeCompare
                (before ++ (level, s, now) :: after) c1) as [c2 ev2].
    destruct (prefetch_background localeCompare (before ++ after) c1) as [c3 ev3].
    simpl in *. exact IH.
Qed.

Lemma prefetch_start_unfold (levels : string) now c :
  levels <> "" ->
  prefetch_start (Some levels) now c
  = (fst (fst (prefetch_each (List.firstn 5 (split "," levels)) now c)),
     Send (prefetch_ack (List.firstn 5 (split "," levels)))
       :: snd (fst (prefetch_each (List.firstn 5 (split "," levels)) now c)),
     snd (prefetch_each (List.firstn 5 (split "," levels)) now c)).
Proof.
  intros H. destruct levels as [|a levels]; [congruence|].
  unfold prefetch_start.
  destruct (prefetch_each _ now c) as [[c' events] waiting]. reflexivity.
Qed.

End PrefetchFacts.

(** C6. Of the comma-separated keys of a prefetch request only the first
    five are processed. The acknowledgment, with status 200 and the list
    of these keys, is the first thing the handler does, before any
    search, and the only response. A key present in the cache is skipped
    and no search is issued for it; a search, [folder:<key> AND
    format:pgn] with a limit of 500, is issued for each of the others. A
    search that delivers its resources stores their classified list
    under the key. A search that fails is only logged: the cache is left
    as it is, nothing is sent, the cache is not read for a stale value,
    and the outcome for the other keys is the same as if the failed
    search had not been there. *)
Theorem prefetch_behaviour (localeCompare : string -> string -> Z)
  (levels : string) (now : Z) (c : NodeCache.data) :
  levels <> "" ->
  let levelsToPrefetch := List.firstn 5 (split "," levels) in
  let c' := fst (fst (prefetch_start (Some levels) now c)) in
  let events := snd (fst (prefetch_start (Some levels) now c)) in
  let waiting := snd (prefetch_start (Some levels) now c) in
  (List.length levelsToPrefetch <= 5)%nat
  /\ (exists rest,
        events
        = Send {| status := 200; headers := [];
                  body := PrefetchAck "Prefetch request received"
                            levelsToPrefetch |} :: rest
        /\ List.filter is_send rest = [])
  /\ waiting
     = List.filter (fun level => negb (snd (NodeCache.has level now c)))
         levelsToPrefetch
  /\ List.filter is_search events
     = map (fun level =>
              Execute (String.append "folder:"
                         (String.append level " AND format:pgn")) 500)
         waiting
  /\ same_but_expired now c' c
  /\ (forall level resources t c0,
        prefetch_resume localeCompare level (Fulfilled (Some resources)) t c0
        = (<[level := {| NodeCache.t := t + 43200 * 1000;
                         NodeCache.v := pgnFiles localeCompare resources |}]> c0,
           [Log (PrefetchComplete level
                   (List.length (pgnFiles localeCompare resources)))]))
  /\ (forall level s t c0, failed s = true ->
        prefetch_resume localeCompare level s t c0
        = (c0, [Log (PrefetchError level)]))
  /\ (forall level s t c0 k, k <> level ->
        fst (prefetch_resume localeCompare level s t c0) !! k = c0 !! k)
  /\ (forall before after level s t c0, failed s = true ->
        fst (prefetch_background localeCompare
               (before ++ (level, s, t) :: after) c0)
        = fst (prefetch_background localeCompare (before ++ after) c0)).
Proof.
  intros Hne levelsToPrefetch c' events waiting.
  unfold c', events, waiting. rewrite (prefetch_start_unfold levels now c Hne).
  fold levelsToPrefetch. simpl.
  pose proof (prefetch_each_spec levelsToPrefetch now c) as Hspec.
  destruct (prefetch_each levelsToPrefetch now c) as [[c1 ev] w].
  destruct Hspec as [Hw [Hs [Hn Hc]]]. simpl.
  split; [unfold levelsToPrefetch; rewrite List.length_firstn; lia|].
  split; [exists ev; auto|].
  split; [exact Hw|].
  split; [exact Hs|].
  split; [exact Hc|].
  split; [reflexivity|].
  split; [intros; apply prefetch_resume_failed; assumption|].
  split; [intros; apply prefetch_resume_other; assumption|].
  intros. apply prefetch_background_failed. assumption.
Qed.

Lemma prefetch_behaviour_witness :
  let c := NodeCache.set "b" [] 0 ∅ in
  snd (prefetch_start (Some "a,b,c,d,e,f,g") 1000 c)
  = List.filter (fun level => negb (snd (NodeCache.has level 1000 c)))
      (List.firstn 5 (split "," "a,b,c,d,e,f,g")).
Proof.
  intros c.
  destruct (prefetch_behaviour codeCompare "a,b,c,d,e,f,g" 1000 c)
    as [_ [_ [H _]]]; [discriminate|].
  exact H.
Defined.

(** A prefetch request without levels is answered 400 and does nothing
    else. *)
Lemma prefetch_without_levels (levels : option string) (now : Z)
  (c : NodeCache.data) :
  truthy levels = false ->
  prefetch_start levels now c
  = (c, [Send {| status := 400; headers := [];
                 body := ErrorOnly "Levels parameter required" |}], []).
Proof. destruct levels as [[|a s]|]; [reflexivity | discriminate | reflexivity]. Qed.

Example prefetch_acknowledgment :
  snd (fst (prefetch_start (Some "a,b,c,d,e,f,g") 1000 (NodeCache.set "b" [] 0 ∅)))
  = [Send {| status := 200; headers := [];
             body := PrefetchAck "Prefetch request received"
                       ["a"; "b"; "c"; "d"; "e"] |};
     Log (BackgroundPrefetching "a");
     Execute "folder:a AND format:pgn" 500;
     Log (AlreadyInCache "b");
     Log (BackgroundPrefetching "c");
     Execute "folder:c AND format:pgn" 500;
     Log (BackgroundPrefetching "d");
     Execute "folder:d AND format:pgn" 500;
     Log (BackgroundPrefetching "e");
     Execute "folder:e AND format:pgn" 500].
Proof. vm_compute. reflexivity. Qed.

Example prefetch_first_five_skip_cached :
  snd (prefetch_start (Some "a,b,c,d,e,f,g") 1000 (NodeCache.set "b" [] 0 ∅))
  = ["a"; "c"; "d"; "e"].
Proof. vm_compute. reflexivity. Qed.

(** C9. The prefetch handler makes no check of the characters of a key:
    a key that holds a character other than a letter, a digit or an
    underscore, such as "bad key!", is put as it is into the search
    expression and the search is issued, while the handler of
    /api/pgn-files rejects the same key with status 400 before any
    search. *)
Theorem prefetch_no_charset_check (localeCompare : string -> string -> Z)
  (key : string) (ch : ascii) (u : upstream) (now : Z) (c : NodeCache.data) :
  key <> "" -> has_char "," key = false ->
  In ch (list_ascii_of_string key) -> is_word_char ch = false ->
  snd (NodeCache.has key now c) = false ->
  prefetch_start (Some key) now c
  = (fst (NodeCache.has key now c),
     [Send (prefetch_ack [key]); Log (BackgroundPrefetching key);
      Execute (String.append "folder:" (String.append key " AND format:pgn")) 500],
     [key])
  /\ pgn_files localeCompare (Some key) u now c = (c, [Send invalid_level_format])
  /\ status invalid_level_format = 400.
Proof.
  intros Hne Hcomma Hin Hch Hhas. split; [|split; [|reflexivity]].
  - rewrite (prefetch_start_unfold key now c Hne).
    rewrite (split_no_sep _ _ Hcomma). simpl.
    rewrite prefetch_one_start_unfold, Hhas. reflexivity.
  - pose proof (level_format_bad key ch Hin Hch) as Hbad.
    destruct key as [|a key]; [congruence|].
    unfold pgn_files, pgn_files_start. rewrite Hbad. reflexivity.
Qed.

Lemma prefetch_no_charset_check_witness :
  prefetch_start (Some "bad key!") 0 ∅
  = (fst (NodeCache.has "bad key!" 0 ∅),
     [Send (prefetch_ack ["bad key!"]); Log (BackgroundPrefetching "bad key!");
      Execute "folder:bad key! AND format:pgn" 500],
     ["bad key!"])
  /\ pgn_files codeCompare (Some "bad key!") Never 0 ∅
     = (∅, [Send invalid_level_format])
  /\ status invalid_level_format = 400.
Proof.
  apply (prefetch_no_charset_check codeCompare "bad key!" " "%char Never 0 ∅).
  - discriminate.
  - reflexivity.
  - simpl. tauto.
  - reflexivity.
  - reflexivity.
Defined.

(** ** Sample evaluations *)

Example split_slashes : split "/" "a//b/" = ["a"; ""; "b"; ""].
Proof. reflexivity. Qed.

Example displayName_folderA :
  displayName (fileInfo_of (res "folderA/10_game")) = "10_game".
Proof. reflexivity. Qed.

Example leading_number_10_game :
  leading_number (fileInfo_of (res "folderA/10_game")) = Fin 10.
Proof. vm_compute. reflexivity. Qed.

Example leading_number_no_digits :
  leading_number (fileInfo_of (res "folderA/apple")) = Fin 0.
Proof. vm_compute. reflexivity. Qed.

Example to_number_rounds : to_number 9007199254740993 = Fin 9007199254740992.
Proof. vm_compute. reflexivity. Qed.

Example to_number_overflows : to_number (10 ^ 400) = PosInf.
Proof. vm_compute. reflexivity. Qed.

Example level_format_examples :
  level_format_ok "Level_2" = true /\ level_format_ok "bad key!" = false
  /\ level_format_ok "" = false.
Proof. repeat split. Qed.

Example race_examples :
  race (Settles 7999 Rejected) = (Rejected, 7999)
  /\ race (Settles 8000 (Fulfilled (Some []))) = (Rejected, 8000)
  /\ race Never = (Rejected, 8000).
Proof. repeat split. Qed.

(** * Further properties of the code *)

(** ** Splitting and joining *)

Lemma split_segments_sep_free (sep : ascii) (s : string) :
  Forall (fun seg => has_char sep seg = false) (split sep s).
Proof.
  induction s as [|c s IH]; simpl; [repeat constructor|].
  destruct (Ascii.eqb c sep) eqn:Hc; [constructor; [reflexivity | exact IH]|].
  destruct (split sep s) as [|seg rest]; [repeat constructor; simpl; now rewrite Hc|].
  inversion IH; subst. constructor; [simpl; rewrite Hc; assumption | assumption].
Qed.

Lemma concat_split (sep : ascii) (s : string) :
  String.concat (String sep EmptyString) (split sep s) = s.
Proof.
  induction s as [|c s IH]; [reflexivity|]. simpl split.
  destruct (Ascii.eqb c sep) eqn:Hc.
  - apply Ascii.eqb_eq in Hc as ->.
    destruct (split_cons sep s) as [seg [rest Hs]]. rewrite Hs in *.
    simpl in *. rewrite IH. reflexivity.
  - destruct (split sep s) as [|seg [|seg' rest]]; simpl in *; try congruence.
    rewrite <- IH. reflexivity.
Qed.

(** X1. Splitting a text at a separator and joining the parts with the
    separator gives the text back; no part holds the separator, and
    there is always at least one part. This is the split of the public
    id at '/' and of the levels of a prefetch at ','. *)
Theorem split_join_round_trip (sep : ascii) (s : string) :
  String.concat (String sep EmptyString) (split sep s) = s
  /\ Forall (fun seg => has_char sep seg = false) (split sep s)
  /\ split sep s <> [].
Proof.
  split; [apply concat_split|]. split; [apply split_segments_sep_free|].
  destruct (split_cons sep s) as [seg [rest ->]]. discriminate.
Qed.

Lemma append_assoc (a b c : string) :
  String.append (String.append a b) c = String.append a (String.append b c).
Proof.
  induction a as [|x a IH]; [reflexivity|].
  change (String x (String.append (String.append a b) c)
          = String x (String.append a (String.append b c))).
  f_equal. exact IH.
Qed.

Lemma concat_cons2 (sep y z : string) (l : list string) :
  String.concat sep (y :: z :: l)
  = String.append y (String.append sep (String.concat sep (z :: l))).
Proof. reflexivity. Qed.

Lemma concat_last (sep : string) (l : list string) (x : string) :
  String.concat sep (l ++ [x])
  = match l with
    | [] => x
    | _ => String.append (String.concat sep l) (String.append sep x)
    end.
Proof.
  induction l as [|y l IH]; [reflexivity|].
  destruct l as [|z l]; [reflexivity|].
  change ((y :: z :: l) ++ [x]) with (y :: (z :: l) ++ [x]).
  change ((z :: l) ++ [x]) with (z :: l ++ [x]) in *.
  rewrite concat_cons2, IH, concat_cons2, !append_assoc. reflexivity.
Qed.

(** ** The display name *)

(** X2. The display name of a descriptor holds no '/' and is the end of
    the public id: the public id is the display name itself, or a folder
    path, a '/' and the display name. *)
Theorem displayName_is_last_segment (file : resource) :
  has_char "/" (displayName (fileInfo_of file)) = false
  /\ (public_id file = displayName (fileInfo_of file)
      \/ exists folder,
           public_id file
           = String.append folder (String "/" (displayName (fileInfo_of file)))).
Proof.
  unfold fileInfo_of. simpl.
  pose proof (concat_split "/" (public_id file)) as Hjoin.
  pose proof (split_segments_sep_free "/" (public_id file)) as Hfree.
  destruct (split_cons "/" (public_id file)) as [seg [rest Hs]].
  destruct (@exists_last _ (split "/" (public_id file))) as [init [name Hl]];
    [rewrite Hs; discriminate|].
  rewrite Hl in *. rewrite last_part_app.
  apply Forall_app in Hfree as [_ Hname]. inversion Hname; subst.
  split; [assumption|].
  rewrite concat_last in Hjoin. destruct init as [|seg0 init]; [left; auto|].
  right. eexists. symmetry. exact Hjoin.
Qed.

(** ** The classified list holds the descriptors of the search *)

Lemma filter_partition_perm {A : Type} (P : A -> bool) (l : list A) :
  Permutation (List.filter P l ++ List.filter (fun x => negb (P x)) l) l.
Proof.
  induction l as [|x l IH]; simpl; [constructor|].
  destruct (P x); simpl.
  - apply perm_skip, IH.
  - eapply Permutation_trans; [apply Permutation_sym, Permutation_middle|].
    apply perm_skip, IH.
Qed.

Lemma pgnFiles_permutation_list (localeCompare : string -> string -> Z)
  (resources : list resource) :
  Permutation (pgnFiles localeCompare resources) (map fileInfo_of resources).
Proof.
  rewrite pgnFiles_unfold.
  eapply Permutation_trans; [|apply (filter_partition_perm is_numbered)].
  apply Permutation_app; apply array_sort_perm.
Qed.

(** X3. Whatever [localeCompare] answers, the classified list holds
    exactly the descriptors of the search, each once, with its URL and
    public id: nothing is lost, added or repeated, and the length is
    kept. *)
Theorem pgnFiles_permutation (localeCompare : string -> string -> Z)
  (resources : list resource) :
  Permutation (pgnFiles localeCompare resources) (map fileInfo_of resources)
  /\ List.length (pgnFiles localeCompare resources) = List.length resources.
Proof.
  pose proof (pgnFiles_permutation_list localeCompare resources) as H.
  split; [exact H|].
  rewrite (Permutation_length H). apply List.length_map.
Qed.

(** ** The rounding of the leading number keeps the order *)

Lemma round_half_even_bounds (n e : Z) :
  0 <= e -> 
  (n / 2 ^ e) * 2 ^ e <= round_half_even n e <= (n / 2 ^ e + 1) * 2 ^ e.
Proof.
  intros He. unfold round_half_even.
  assert (Hp : 0 < 2 ^ e) by (apply Z.pow_pos_nonneg; lia).
  repeat match goal with |- context [if ?b then _ else _] => destruct b end; nia.
Qed.

Lemma round_half_even_mono (n m e : Z) :
  0 < e -> n <= m -> round_half_even n e <= round_half_even m e.
Proof.
  intros He Hnm.
  assert (Hp : 0 < 2 ^ e) by (apply Z.pow_pos_nonneg; lia).
  assert (Hq : n / 2 ^ e <= m / 2 ^ e) by (apply Z.div_le_mono; lia).
  destruct (Z.eq_dec (n / 2 ^ e) (m / 2 ^ e)) as [Heq|Hne].
  - assert (Hr : n mod 2 ^ e <= m mod 2 ^ e).
    { rewrite !Z.mod_eq by lia. rewrite Heq. lia. }
    unfold round_half_even. rewrite Heq.
    destruct (n mod 2 ^ e <? 2 ^ (e - 1)) eqn:E1,
             (m mod 2 ^ e <? 2 ^ (e - 1)) eqn:E2,
             (2 ^ (e - 1) <? n mod 2 ^ e) eqn:E3,
             (2 ^ (e - 1) <? m mod 2 ^ e) eqn:E4,
             (Z.even (m / 2 ^ e));
      rewrite ?Z.ltb_lt, ?Z.ltb_ge in *; nia.
  - pose proof (round_half_even_bounds n e ltac:(lia)) as [_ Hn].
    pose proof (round_half_even_bounds m e ltac:(lia)) as [Hm _].
    nia.
Qed.

Lemma round_half_even_below (n : Z) :
  2 ^ 53 <= n ->
  round_half_even n (Z.log2 n - 52) <= 2 ^ (Z.log2 n + 1).
Proof.
  intros Hn.
  assert (H53 : 53 <= Z.log2 n) by (apply Z.log2_le_pow2; lia).
  set (e := Z.log2 n - 52).
  assert (Hp : 0 < 2 ^ e) by (apply Z.pow_pos_nonneg; lia).
  pose proof (round_half_even_bounds n e ltac:(lia)) as [_ Hub].
  assert (Hlt : n < 2 ^ (Z.log2 n + 1)).
  { pose proof (Z.log2_spec n ltac:(lia)) as [_ H]. 
    replace (Z.log2 n + 1) with (Z.succ (Z.log2 n)) by lia. exact H. }
  assert (Hpow : 2 ^ (Z.log2 n + 1) = 2 ^ 53 * 2 ^ e).
  { rewrite <- Z.pow_add_r by lia. f_equal. lia. }
  assert (Hq : n / 2 ^ e < 2 ^ 53).
  { apply Z.div_lt_upper_bound; [lia|]. rewrite Z.mul_comm, <- Hpow. exact Hlt. }
  rewrite Hpow. nia.
Qed.

Lemma round_half_even_above (n : Z) :
  2 ^ 53 <= n ->
  2 ^ Z.log2 n <= round_half_even n (Z.log2 n - 52).
Proof.
  intros Hn.
  assert (H53 : 53 <= Z.log2 n) by (apply Z.log2_le_pow2; lia).
  set (e := Z.log2 n - 52).
  assert (Hp : 0 < 2 ^ e) by (apply Z.pow_pos_nonneg; lia).
  pose proof (round_half_even_bounds n e ltac:(lia)) as [Hlb _].
  assert (Hge : 2 ^ Z.log2 n <= n) by (apply Z.log2_spec; lia).
  assert (Hpow : 2 ^ Z.log2 n = 2 ^ 52 * 2 ^ e).
  { rewrite <- Z.pow_add_r by lia. f_equal. lia. }
  assert (Hq : 2 ^ 52 <= n / 2 ^ e).
  { apply Z.div_le_lower_bound; [lia|]. rewrite Z.mul_comm, <- Hpow. exact Hge. }
  rewrite Hpow. nia.
Qed.

Lemma round_large_mono (n m : Z) :
  2 ^ 53 <= n -> n <= m ->
  round_half_even n (Z.log2 n - 52) <= round_half_even m (Z.log2 m - 52).
Proof.
  intros Hn Hnm.
  assert (H53 : 53 <= Z.log2 n) by (apply Z.log2_le_pow2; lia).
  assert (Hlog : Z.log2 n <= Z.log2 m) by (apply Z.log2_le_mono; exact Hnm).
  destruct (Z.eq_dec (Z.log2 n) (Z.log2 m)) as [Heq|Hne].
  - rewrite <- Heq. apply round_half_even_mono; lia.
  - transitivity (2 ^ (Z.log2 n + 1)); [apply round_half_even_below; exact Hn|].
    transitivity (2 ^ Z.log2 m); [|apply round_half_even_above; lia].
    apply Z.pow_le_mono_r; lia.
Qed.

(** A larger integer never reads as a smaller number. *)
Lemma to_number_mono (n m : Z) :
  0 <= n -> n <= m -> number_leb (to_number n) (to_number m) = true.
Proof.
  intros H0 Hnm. unfold to_number.
  destruct (0 <=? n) eqn:En; [|apply Z.leb_gt in En; lia].
  destruct (0 <=? m) eqn:Em; [|apply Z.leb_gt in Em; lia].
  unfold round_magnitude.
  destruct (n <? 2 ^ 53) eqn:Sn; destruct (m <? 2 ^ 53) eqn:Sm;
    [apply Z.ltb_lt in Sn | apply Z.ltb_lt in Sn | apply Z.ltb_ge in Sn
     | apply Z.ltb_ge in Sn];
    [apply Z.ltb_lt in Sm | apply Z.ltb_ge in Sm | apply Z.ltb_lt in Sm
     | apply Z.ltb_ge in Sm].
  - simpl. apply Z.leb_le. exact Hnm.
  - pose proof (round_half_even_above m Sm) as Hm.
    assert (H53 : 53 <= Z.log2 m) by (apply Z.log2_le_pow2; lia).
    assert (Hp : 2 ^ 53 <= 2 ^ Z.log2 m) by (apply Z.pow_le_mono_r; lia).
    destruct (round_half_even m (Z.log2 m - 52) <? 2 ^ 1024); simpl;
      [apply Z.leb_le; lia | reflexivity].
  - lia.
  - pose proof (round_large_mono n m Sn Hnm) as Hr.
    destruct (round_half_even m (Z.log2 m - 52) <? 2 ^ 1024) eqn:Fm.
    + apply Z.ltb_lt in Fm.
      destruct (round_half_even n (Z.log2 n - 52) <? 2 ^ 1024) eqn:Fn;
        [|apply Z.ltb_ge in Fn; lia].
      simpl. apply Z.leb_le. exact Hr.
    + destruct (round_half_even n (Z.log2 n - 52) <? 2 ^ 1024); reflexivity.
Qed.

Lemma number_leb_antisym (x y : number) :
  number_leb x y = true -> number_leb y x = true -> x = y.
Proof.
  destruct x as [a| | |], y as [b| | |]; simpl; try discriminate; try reflexivity.
  rewrite !Z.leb_le. intros. f_equal. lia.
Qed.

Lemma pgnFiles_numbered (localeCompare : string -> string -> Z)
  (resources : list resource) :
  List.filter is_numbered (pgnFiles localeCompare resources)
  = array_sort compare_numbers
      (List.filter is_numbered (map fileInfo_of resources)).
Proof.
  rewrite pgnFiles_unfold, List.filter_app.
  set (ns := array_sort compare_numbers _).
  set (ls := array_sort (compare_letters localeCompare) _).
  rewrite (filter_all is_numbered ns), (filter_none is_numbered ls), app_nil_r.
  - reflexivity.
  - apply sorted_filter_forall. intros f _ H. apply negb_true_iff, H.
  - apply sorted_filter_forall. auto.
Qed.

(** X4. Reading the leading number as a double keeps the order of the
    integers: in the classified list a numbered entry stands behind an
    entry with a larger leading integer only when the two integers read
    as the same double. No assumption on [localeCompare] is needed. *)
Theorem numbered_order_up_to_rounding (localeCompare : string -> string -> Z)
  (resources : list resource) :
  StronglySorted
    (fun a b =>
       leading_int (displayName a) <= leading_int (displayName b)
       \/ number_key a = number_key b)
    (List.filter is_numbered (pgnFiles localeCompare resources)).
Proof.
  rewrite pgnFiles_numbered.
  eapply StronglySorted_weaken;
    [|apply (array_sort_strongly_sorted compare_numbers
               compare_numbers_asym compare_numbers_trans)].
  intros a b _ _ Hab. apply compare_numbers_keeps in Hab.
  rewrite !number_key_leading_number in Hab.
  destruct (Z_le_gt_dec (leading_int (displayName a))
              (leading_int (displayName b))) as [Hle|Hgt]; [left; exact Hle|].
  right. apply number_leb_antisym; [exact Hab|].
  apply to_number_mono; [apply leading_int_nonneg | lia].
Qed.

(** ** Sorting related lists *)

Section SortRelated.
Context {A B : Type}.
Variable R : A -> B -> Prop.
Variable compareA : A -> A -> number.
Variable compareB : B -> B -> number.
Hypothesis compare_related :
  forall x x' y y', R x x' -> R y y' ->
    is_positive (compareA x y) = is_positive (compareB x' y').

Lemma sort_insert_related (x : A) (x' : B) (l : list A) (l' : list B) :
  R x x' -> Forall2 R l l' ->
  Forall2 R (sort_insert compareA x l) (sort_insert compareB x' l').
Proof.
  intros Hx Hl. induction Hl as [|y y' l l' Hy Hl IH]; simpl.
  - repeat constructor. exact Hx.
  - rewrite <- (compare_related x x' y y' Hx Hy).
    destruct (is_positive (compareA x y)); repeat constructor; assumption.
Qed.

Lemma array_sort_related (l : list A) (l' : list B) :
  Forall2 R l l' ->
  Forall2 R (array_sort compareA l) (array_sort compareB l').
Proof.
  induction 1 as [|x x' l l' Hx Hl IH]; simpl; [constructor|].
  apply sort_insert_related; assumption.
Qed.

End SortRelated.

Lemma filter_related {A B : Type} (R : A -> B -> Prop)
  (P : A -> bool) (P' : B -> bool) (l : list A) (l' : list B) :
  (forall x x', R x x' -> P x = P' x') ->
  Forall2 R l l' ->
  Forall2 (fun x x' => R x x' /\ P x = true) (List.filter P l) (List.filter P' l').
Proof.
  intros HP. induction 1 as [|x x' l l' Hx Hl IH]; simpl; [constructor|].
  rewrite <- (HP x x' Hx). destruct (P x) eqn:Hp; [constructor; auto | exact IH].
Qed.

Lemma Forall2_weaken {A B : Type} (R R' : A -> B -> Prop) (l : list A) (l' : list B) :
  (forall x x', R x x' -> R' x x') -> Forall2 R l l' -> Forall2 R' l l'.
Proof. intros H. induction 1; constructor; auto. Qed.

Lemma Forall2_map_eq {A B C : Type} (f : A -> C) (g : B -> C)
  (l : list A) (l' : list B) :
  Forall2 (fun x x' => f x = g x') l l' -> map f l = map g l'.
Proof. induction 1; simpl; congruence. Qed.

(** ** The order does not depend on the URLs *)

(** X5. The order of the classified list is decided by the public ids
    alone: two results of the search with the same public ids in the
    same order give lists with the same public ids in the same order,
    whatever their URLs are. *)
Theorem order_ignores_urls (localeCompare : string -> string -> Z)
  (resources resources' : list resource) :
  Forall2 (fun r r' => public_id r = public_id r') resources resources' ->
  map filename (pgnFiles localeCompare resources)
  = map filename (pgnFiles localeCompare resources').
Proof.
  intros Hids.
  set (R := fun f f' : fileInfo =>
              filename f = filename f' /\ displayName f = displayName f').
  assert (Hinfos : Forall2 R (map fileInfo_of resources)
                     (map fileInfo_of resources')).
  { induction Hids as [|r r' l l' Hr Hl IH]; simpl; [constructor|].
    constructor; [|exact IH]. unfold R, fileInfo_of. simpl. rewrite Hr. auto. }
  apply (Forall2_map_eq filename filename).
  apply (Forall2_weaken R); [intros x x' [H _]; exact H|].
  rewrite !pgnFiles_unfold. apply List.Forall2_app.
  - apply array_sort_related.
    + intros x x' y y' [_ Hx] [_ Hy].
      unfold compare_numbers, leading_number. rewrite Hx, Hy. reflexivity.
    + eapply Forall2_weaken; [|apply (filter_related R is_numbered is_numbered);
                                [|exact Hinfos]].
      * intros x x' [H _]. exact H.
      * intros x x' [_ H]. unfold is_numbered. rewrite H. reflexivity.
  - apply array_sort_related.
    + intros x x' y y' [_ Hx] [_ Hy].
      unfold compare_letters. rewrite Hx, Hy. reflexivity.
    + eapply Forall2_weaken;
        [|apply (filter_related R (fun f => negb (is_numbered f))
                   (fun f => negb (is_numbered f))); [|exact Hinfos]].
      * intros x x' [H _]. exact H.
      * intros x x' [_ H]. unfold is_numbered. rewrite H. reflexivity.
Qed.

Lemma order_ignores_urls_witness :
  map filename
    (pgnFiles codeCompare
       [ {| secure_url := "u1"; public_id := "a/2_x" |};
         {| secure_url := "u2"; public_id := "a/1_y" |} ])
  = map filename
      (pgnFiles codeCompare
         [ {| secure_url := "v1"; public_id := "a/2_x" |};
           {| secure_url := "v2"; public_id := "a/1_y" |} ]).
Proof.
  apply order_ignores_urls. repeat constructor.
Defined.

(** ** The handler of src/server.js *)

Lemma server_fold_push_file (resources : list resource)
  (acc : list ServerJs.pgnFile * list ServerJs.pgnFile) :
  fold_left ServerJs.push_file resources acc
  = (fst acc ++ List.filter id_numbered (map ServerJs.pgnFile_of resources),
     snd acc ++ List.filter (fun g => negb (id_numbered g))
                  (map ServerJs.pgnFile_of resources)).
Proof.
  revert acc. induction resources as [|r rs IH]; intros [ns ls]; simpl.
  - rewrite !app_nil_r. reflexivity.
  - rewrite IH. unfold ServerJs.push_file, id_numbered. simpl.
    destruct (starts_with_digit (public_id r)); simpl;
      rewrite <- ?app_assoc; reflexivity.
Qed.

Lemma server_pgnFiles_unfold (localeCompare : string -> string -> Z)
  (resources : list resource) :
  ServerJs.pgnFiles localeCompare resources
  = array_sort ServerJs.compare_numbers
      (List.filter id_numbered (map ServerJs.pgnFile_of resources))
    ++ array_sort (ServerJs.compare_letters localeCompare)
      (List.filter (fun g => negb (id_numbered g))
         (map ServerJs.pgnFile_of resources)).
Proof. unfold ServerJs.pgnFiles. rewrite server_fold_push_file. reflexivity. Qed.

Lemma match_leading_digits_numbered (s : string) :
  starts_with_digit s = true ->
  parseInt (match_leading_digits s) = to_number (leading_int s).
Proof.
  destruct s as [|c s]; [discriminate|]. simpl. intros Hc.
  unfold match_leading_digits, leading_int. simpl. rewrite Hc. reflexivity.
Qed.

(** On a name that begins with a digit the default [|| 0] of the newer
    comparator changes nothing. *)
Lemma server_leading_number (f : fileInfo) (g : ServerJs.pgnFile) :
  displayName f = ServerJs.filename g -> is_numbered f = true ->
  ServerJs.leading_number g = leading_number f.
Proof.
  intros Hn Hd. unfold ServerJs.leading_number. rewrite <- Hn.
  rewrite leading_number_to_number. apply match_leading_digits_numbered, Hd.
Qed.

(** X6. For public ids without a folder path the handler of
    src/server.js and the handler with the cache order the descriptors
    alike: dropping the display names from the classified list gives the
    list of src/server.js. *)
Theorem server_js_agrees_on_flat_ids (localeCompare : string -> string -> Z)
  (resources : list resource) :
  Forall (fun r => has_char "/" (public_id r) = false) resources ->
  map drop_displayName (pgnFiles localeCompare resources)
  = ServerJs.pgnFiles localeCompare resources.
Proof.
  intros Hflat.
  set (R := fun (f : fileInfo) (g : ServerJs.pgnFile) =>
              g = drop_displayName f /\ displayName f = ServerJs.filename g).
  assert (Hinfos : Forall2 R (map fileInfo_of resources)
                     (map ServerJs.pgnFile_of resources)).
  { induction Hflat as [|r l Hr Hl IH]; simpl; [constructor|].
    constructor; [|exact IH]. split; [reflexivity|].
    destruct r as [u id]. simpl in *. exact (displayName_no_folder u id Hr). }
  rewrite <- (map_id (ServerJs.pgnFiles localeCompare resources)).
  apply Forall2_map_eq.
  apply (Forall2_weaken R); [intros x x' [H _]; unfold id; congruence|].
  rewrite pgnFiles_unfold, server_pgnFiles_unfold. apply List.Forall2_app.
  - eapply Forall2_weaken;
      [|apply (array_sort_related (fun f g => R f g /\ is_numbered f = true)
                 compare_numbers ServerJs.compare_numbers)].
    + intros x x' [H _]. exact H.
    + intros x x' y y' [[_ Hx] Nx] [[_ Hy] Ny].
      unfold compare_numbers, ServerJs.compare_numbers.
      rewrite (server_leading_number x x' Hx Nx), (server_leading_number y y' Hy Ny).
      reflexivity.
    + apply (filter_related R is_numbered id_numbered); [|exact Hinfos].
      intros x x' [_ H]. unfold is_numbered, id_numbered. rewrite H. reflexivity.
  - apply array_sort_related.
    + intros x x' y y' [_ Hx] [_ Hy].
      unfold compare_letters, ServerJs.compare_letters. rewrite Hx, Hy. reflexivity.
    + eapply Forall2_weaken;
        [|apply (filter_related R (fun f => negb (is_numbered f))
                   (fun g => negb (id_numbered g))); [|exact Hinfos]].
      * intros x x' [H _]. exact H.
      * intros x x' [_ H]. unfold is_numbered, id_numbered. rewrite H. reflexivity.
Qed.

Lemma server_js_agrees_on_flat_ids_witness :
  map drop_displayName (pgnFiles codeCompare (map res ["10_x"; "apple"; "2_y"]))
  = ServerJs.pgnFiles codeCompare (map res ["10_x"; "apple"; "2_y"]).
Proof.
  apply server_js_agrees_on_flat_ids. repeat constructor.
Defined.

(** X7. When no public id begins with a digit, as for public ids that
    carry the path of a folder whose name begins with a letter, the
    handler of src/server.js orders the whole list by [localeCompare] of
    the public ids: the numbers at the start of the file names play no
    part in the order. *)
Theorem server_js_orders_by_whole_id (localeCompare : string -> string -> Z)
  (resources : list resource) :
  Forall (fun r => starts_with_digit (public_id r) = false) resources ->
  ServerJs.pgnFiles localeCompare resources
  = array_sort (ServerJs.compare_letters localeCompare)
      (map ServerJs.pgnFile_of resources).
Proof.
  intros Hno. rewrite server_pgnFiles_unfold.
  assert (Hall : Forall (fun g => id_numbered g = false)
                   (map ServerJs.pgnFile_of resources)).
  { induction Hno; simpl; constructor; auto. }
  rewrite (filter_none id_numbered _ Hall).
  rewrite (filter_all (fun g => negb (id_numbered g))).
  - reflexivity.
  - eapply List.Forall_impl; [|exact Hall]. intros g ->. reflexivity.
Qed.

Lemma server_js_orders_by_whole_id_witness :
  ServerJs.pgnFiles codeCompare (map res ["folderA/10_game"; "folderA/2_game"])
  = array_sort (ServerJs.compare_letters codeCompare)
      (map ServerJs.pgnFile_of (map res ["folderA/10_game"; "folderA/2_game"])).
Proof.
  apply server_js_orders_by_whole_id. repeat constructor.
Defined.

Example server_js_folder_order :
  map ServerJs.filename
    (ServerJs.pgnFiles codeCompare (map res ["folderA/2_game"; "folderA/10_game"]))
  = ["folderA/10_game"; "folderA/2_game"].
Proof. vm_compute. reflexivity. Qed.


(** X9. The handler of src/server.js answers a request at most once; it
    leaves a request without any answer exactly when a level is given
    and the search never settles, since it waits for the search without
    a deadline. A level that is absent or empty is answered 400 without
    a search; any other level is put as it is into the expression of the
    search. *)
Theorem server_js_answers (localeCompare : string -> string -> Z)
  (level : option string) (u : upstream) :
  let events := ServerJs.pgn_files localeCompare level u in
  (List.length (List.filter ServerJs.is_respond events) <= 1)%nat
  /\ (List.filter ServerJs.is_respond events = []
      <-> truthy level = true /\ u = Never)
  /\ (truthy level = false ->
      events = [ServerJs.Respond 400 (ServerJs.Error "Level is required")])
  /\ (forall k, level = Some k -> k <> "" ->
      exists rest, events = ServerJs.Query (search_expression k) None :: rest).
Proof.
  cbv zeta.
  assert (Hfalsy : truthy level = false ->
            ServerJs.pgn_files localeCompare level u
            = [ServerJs.Respond 400 (ServerJs.Error "Level is required")]).
  { destruct level as [[|a k]|]; simpl; [reflexivity | discriminate | reflexivity]. }
  destruct (truthy level) eqn:Ht.
  - destruct level as [[|a k]|]; try discriminate. simpl.
    split; [destruct u as [after [[rs|]|]|]; simpl; lia|].
    split; [|split; [discriminate|]].
    + split.
      * destruct u as [after [[rs|]|]|]; simpl; try discriminate. auto.
      * intros [_ ->]. reflexivity.
    + intros k' [= <-] _. eexists. reflexivity.
  - rewrite (Hfalsy eq_refl). simpl.
    split; [lia|]. split; [split; [discriminate | intros [H _]; discriminate]|].
    split; [reflexivity|].
    intros k -> Hk. destruct k; [congruence | discriminate].
Qed.

(** ** Every run of GET /api/pgn-files *)

Lemma all_word_chars_true (s : string) (ch : ascii) :
  all_word_chars s = true -> In ch (list_ascii_of_string s) ->
  is_word_char ch = true.
Proof.
  induction s as [|c s IH]; simpl; [tauto|].
  intros H [->|Hin]; apply andb_true_iff in H as [Hc Hs]; auto.
Qed.

(** The courses a request can take when no other handler runs in
    between. *)
Lemma pgn_files_courses (localeCompare : string -> string -> Z)
  (level : option string) (u : upstream) (now : Z) (c : NodeCache.data) :
  let events := snd (pgn_files localeCompare level u now c) in
  (truthy level = false /\ events = [Send level_required])
  \/ (exists k, level = Some k /\ level_format_ok k = false
        /\ events = [Send invalid_level_format])
  \/ (exists k files, level = Some k /\ level_format_ok k = true
        /\ events = [Log (ServingCached k); Send (cached_response files)])
  \/ (exists k files, level = Some k /\ level_format_ok k = true
        /\ events = [Log (FetchingFromCloudinary k);
                     Execute (search_expression k) 500;
                     Send (fresh_response files);
                     Log (SuccessfullyServed (List.length files) k)])
  \/ (exists k, level = Some k /\ level_format_ok k = true
        /\ events = [Log (FetchingFromCloudinary k);
                     Execute (search_expression k) 500;
                     Log ErrorFetching; Send failed_to_fetch]).
Proof.
  cbv zeta.
  destruct level as [[|a s]|]; [left; auto | | left; auto].
  set (k := String a s).
  destruct (level_format_ok k) eqn:Hok.
  2:{ right; left. exists k. unfold pgn_files, pgn_files_start. fold k.
      rewrite Hok. auto. }
  destruct (snd (pgn_files_start (Some k) now c)) as [k'|] eqn:Hw.
  - pose proof (pgn_files_start_waiting _ _ _ _ Hw) as [[= <-] _].
    destruct (failed (fst (race u))) eqn:Hf.
    + right; right; right; right. exists k.
      rewrite (pgn_files_failure_isolated localeCompare _ u now c k Hw Hf). auto.
    + right; right; right; left.
      destruct u as [after [[resources|]|]|]; simpl in Hf; try discriminate;
        destruct (after <? 8000) eqn:Ha; simpl in Hf; try discriminate.
      exists k, (pgnFiles localeCompare resources).
      rewrite (pgn_files_fresh localeCompare _ after resources now c k Hw)
        by (apply Z.ltb_lt; exact Ha).
      auto.
  - right; right; left.
    rewrite (pgn_files_start_unfold k now c Hok) in Hw. simpl in Hw.
    destruct (snd (NodeCache.get k now c)) as [files|] eqn:Hg; [|discriminate].
    exists k, files. rewrite (pgn_files_cached localeCompare k u now c files Hok Hg).
    auto.
Qed.

(** X10. A request to /api/pgn-files whose level is absent or a text
    (one [level=...] in the query; a level given as an array or an
    object is not in the domain of [pgn_files]) is answered exactly
    once, also when the search never settles, with status 200, 400 or
    500; and it issues at most one search, so a failed search is not
    tried again. *)
Theorem pgn_files_one_answer (localeCompare : string -> string -> Z)
  (level : option string) (u : upstream) (now : Z) (c : NodeCache.data) :
  let events := snd (pgn_files localeCompare level u now c) in
  (exists r, List.filter is_send events = [Send r]
             /\ (status r = 200 \/ status r = 400 \/ status r = 500))
  /\ (List.length (List.filter is_search events) <= 1)%nat.
Proof.
  cbv zeta.
  destruct (pgn_files_courses localeCompare level u now c)
    as [[_ ->]|[[k [_ [_ ->]]]|[[k [files [_ [_ ->]]]]|[[k [files [_ [_ ->]]]]
        |[k [_ [_ ->]]]]]]]; simpl;
    (split; [eexists; split; [reflexivity|simpl; auto] | lia]).
Qed.

(** X11. Every search that /api/pgn-files issues is for the level of the
    request, put into [folder:<level> AND format:pgn] with a limit of
    500 results, and that level is not empty and holds only letters,
    digits and underscores: no other character reaches the expression
    of the search. *)
Theorem pgn_files_search_is_safe (localeCompare : string -> string -> Z)
  (level : option string) (u : upstream) (now : Z) (c : NodeCache.data)
  (expression : string) (max_results : Z) :
  In (Execute expression max_results)
    (snd (pgn_files localeCompare level u now c)) ->
  exists k,
    level = Some k /\ k <> ""
    /\ expression = String.append "folder:" (String.append k " AND format:pgn")
    /\ max_results = 500
    /\ forall ch, In ch (list_ascii_of_string k) -> is_word_char ch = true.
Proof.
  intros Hin.
  assert (Hsafe : forall k, level_format_ok k = true ->
            k <> "" /\ forall ch, In ch (list_ascii_of_string k) ->
                                  is_word_char ch = true).
  { intros k Hok. destruct k as [|a k]; [discriminate|].
    split; [discriminate|]. intros ch. apply all_word_chars_true, Hok. }
  destruct (pgn_files_courses localeCompare level u now c)
    as [[_ H]|[[k [_ [_ H]]]|[[k [files [_ [_ H]]]]|[[k [files [-> [Hok H]]]]
        |[k [-> [Hok H]]]]]]]; rewrite H in Hin; simpl in Hin;
    repeat (destruct Hin as [Hin|Hin]; try discriminate); try contradiction;
    injection Hin as <- <-; exists k; destruct (Hsafe k Hok); auto.
Qed.

Lemma pgn_files_search_is_safe_witness :
  exists k,
    Some "beginner" = Some k /\ k <> ""
    /\ search_expression "beginner"
       = String.append "folder:" (String.append k " AND format:pgn")
    /\ 500 = 500
    /\ forall ch, In ch (list_ascii_of_string k) -> is_word_char ch = true.
Proof.
  apply (pgn_files_search_is_safe codeCompare (Some "beginner") Never 0 ∅).
  vm_compute. auto.
Defined.





(** ** Prefetch, cache and invalidation together *)



(** X15. After an authorised clearing of the cache, for one level or
    for all of them, the next request for that level finds nothing in
    the cache and issues a search, whatever was stored before. *)
Theorem clear_cache_forces_search (ADMIN_API_KEY : option string)
  (req : clear_cache_body) (k : string) (now : Z) (c : NodeCache.data) :
  apiKey req = ADMIN_API_KEY ->
  level req = Some k \/ truthy (level req) = false ->
  level_format_ok k = true ->
  let c' := fst (clear_cache ADMIN_API_KEY req c) in
  pgn_files_start (Some k) now c'
  = (c', [Log (FetchingFromCloudinary k); Execute (search_expression k) 500],
     Some k).
Proof.
  intros Hkey Hlevel Hok. cbv zeta.
  assert (Habs : fst (clear_cache ADMIN_API_KEY req c) !! k = None).
  { destruct Hlevel as [Hl|Hl].
    - rewrite (clear_cache_level _ _ _ k Hkey Hl)
        by (destruct k; [discriminate | discriminate]).
      apply lookup_delete_eq.
    - rewrite (clear_cache_all _ _ _ Hkey Hl). apply lookup_empty. }
  rewrite (pgn_files_start_unfold k now _ Hok).
  rewrite get_value, get_cache, Habs. reflexivity.
Qed.

Lemma clear_cache_forces_search_witness :
  pgn_files_start (Some "beginner") 10
    (fst (clear_cache (Some "s3cret")
            {| level := Some "beginner"; apiKey := Some "s3cret" |}
            (NodeCache.set "beginner" [] 0 ∅)))
  = (fst (clear_cache (Some "s3cret")
            {| level := Some "beginner"; apiKey := Some "s3cret" |}
            (NodeCache.set "beginner" [] 0 ∅)),
     [Log (FetchingFromCloudinary "beginner");
      Execute (search_expression "beginner") 500],
     Some "beginner").
Proof.
  apply (clear_cache_forces_search (Some "s3cret")
           {| level := Some "beginner"; apiKey := Some "s3cret" |}
           "beginner" 10 (NodeCache.set "beginner" [] 0 ∅));
    [reflexivity | left; reflexivity | reflexivity].
Defined.

Section PrefetchOrder.
Variable localeCompare : string -> string -> Z.

Lemma prefetch_background_cons (x : string * settled * Z)
  (rest : list (string * settled * Z)) (c : NodeCache.data) :
  fst (prefetch_background localeCompare (x :: rest) c)
  = fst (prefetch_background localeCompare rest
           (fst (prefetch_resume localeCompare (settlement_level x)
                   (snd (fst x)) (snd x) c))).
Proof.
  destruct x as [[k s] t]. unfold settlement_level. simpl.
  destruct (prefetch_resume localeCompare k s t c) as [c1 ev1]. simpl.
  destruct (prefetch_background localeCompare rest c1). reflexivity.
Qed.

(** The entry a settlement leaves under its own level. *)
Lemma prefetch_resume_own (k : string) (s : settled) (t : Z) (c : NodeCache.data) :
  fst (prefetch_resume localeCompare k s t c) !! k
  = match s with
    | Fulfilled (Some resources) =>
        Some {| NodeCache.t := t + 43200 * 1000;
                NodeCache.v := pgnFiles localeCompare resources |}
    | _ => c !! k
    end.
Proof.
  destruct s as [[resources|]|]; simpl; try reflexivity.
  unfold NodeCache.set. apply lookup_insert_eq.
Qed.

Lemma prefetch_background_entries (settlements : list (string * settled * Z)) :
  List.NoDup (map settlement_level settlements) ->
  forall c,
    (forall k s t, In (k, s, t) settlements ->
       fst (prefetch_background localeCompare settlements c) !! k
       = fst (prefetch_resume localeCompare k s t c) !! k)
    /\ (forall k, ~ In k (map settlement_level settlements) ->
         fst (prefetch_background localeCompare settlements c) !! k = c !! k).
Proof.
  induction settlements as [|[[k0 s0] t0] rest IH]; intros Hnd c.
  - split; [intros k s t []|reflexivity].
  - simpl in Hnd. apply List.NoDup_cons_iff in Hnd as [Hfresh Hnd].
    rewrite prefetch_background_cons. unfold settlement_level at 1 3. simpl fst. simpl snd.
    destruct (IH Hnd (fst (prefetch_resume localeCompare k0 s0 t0 c)))
      as [IHin IHout].
    split.
    + intros k s t [[= <- <- <-]|Hin].
      * apply IHout. exact Hfresh.
      * assert (Hne : k <> k0).
        { intros ->.
          exact (Hfresh (in_map settlement_level rest (k0, s, t) Hin)). }
        rewrite (IHin k s t Hin).
        rewrite !prefetch_resume_own.
        rewrite (prefetch_resume_other localeCompare k0 s0 t0 c k Hne).
        reflexivity.
    + intros k Hout. simpl in Hout.
      rewrite IHout by tauto.
      apply prefetch_resume_other. intros ->. apply Hout. left. reflexivity.
Qed.

End PrefetchOrder.

(** X16. When the searches of prefetches are for different levels, what
    is stored under a level in the end is decided by the settlement of
    that level alone, by its result and the instant at which it settled:
    a search that delivered resources leaves their classified list with
    a time to live of 12 hours from that instant, a search that failed
    leaves the entry the level had before, and a level without a search
    keeps its entry. The other searches, and the place of the
    settlement among them, make no difference. *)
Theorem prefetch_entry_depends_on_own_settlement
  (localeCompare : string -> string -> Z)
  (settlements : list (string * settled * Z)) (c : NodeCache.data) :
  List.NoDup (map settlement_level settlements) ->
  let c' := fst (prefetch_background localeCompare settlements c) in
  (forall k resources t, In (k, Fulfilled (Some resources), t) settlements ->
     c' !! k = Some {| NodeCache.t := t + 43200 * 1000;
                       NodeCache.v := pgnFiles localeCompare resources |})
  /\ (forall k s t, In (k, s, t) settlements -> failed s = true ->
       c' !! k = c !! k)
  /\ (forall k, ~ In k (map settlement_level settlements) -> c' !! k = c !! k).
Proof.
  intros Hnd. cbv zeta.
  destruct (prefetch_background_entries localeCompare settlements Hnd c)
    as [Hin Hout].
  split; [|split; [|exact Hout]].
  - intros k resources t H. rewrite (Hin _ _ _ H). apply prefetch_resume_own.
  - intros k s t H Hf. rewrite (Hin _ _ _ H), prefetch_resume_own.
    destruct s as [[resources|]|]; [discriminate | reflexivity | reflexivity].
Qed.

Lemma prefetch_entry_depends_on_own_settlement_witness :
  fst (prefetch_background codeCompare
         [("b", Rejected, 10); ("a", Fulfilled (Some [res "a/1"]), 20)] ∅)
    !! "a"
  = Some {| NodeCache.t := 20 + 43200 * 1000;
            NodeCache.v := pgnFiles codeCompare [res "a/1"] |}.
Proof.
  apply (prefetch_entry_depends_on_own_settlement codeCompare
           [("b", Rejected, 10); ("a", Fulfilled (Some [res "a/1"]), 20)] ∅).
  - apply List.NoDup_cons; [simpl; intros [H|[]]; discriminate|].
    apply List.NoDup_cons; [simpl; tauto | apply List.NoDup_nil].
  - right. left. reflexivity.
Defined.

(** ** GET /api/pgn-content *)






Example pgn_content_other_host :
  PgnContent.pgn_content_start (Some "http://10.0.0.1/admin?x=cloudinary.com")
  = ([PgnContent.Fetch "http://10.0.0.1/admin?x=cloudinary.com"],
     Some "http://10.0.0.1/admin?x=cloudinary.com").
Proof. reflexivity. Qed.


(** ** The answer marked as stale *)

(** X19. A request to /api/pgn-files that runs with no other handler in
    between never sends the header X-Served-From-Stale-Cache, whatever
    the cache holds and however the search settles: the lookup of the
    [catch] block repeats the lookup that has just found nothing. *)
Theorem stale_marker_never_sent_alone (localeCompare : string -> string -> Z)
  (level : option string) (u : upstream) (now : Z) (c : NodeCache.data)
  (r : response) :
  In (Send r) (snd (pgn_files localeCompare level u now c)) ->
  ~ In ("X-Served-From-Stale-Cache", "true") (headers r).
Proof.
  intros Hin.
  destruct (pgn_files_courses localeCompare level u now c)
    as [[_ H]|[[k [_ [_ H]]]|[[k [files [_ [_ H]]]]|[[k [files [_ [_ H]]]]
        |[k [_ [_ H]]]]]]]; rewrite H in Hin; simpl in Hin;
    repeat (destruct Hin as [Hin|Hin]; try discriminate); try contradiction;
    injection Hin as <-; simpl; intros Hh;
    repeat (destruct Hh as [Hh|Hh]; try discriminate); contradiction.
Qed.

Lemma stale_marker_never_sent_alone_witness :
  ~ In ("X-Served-From-Stale-Cache", "true") (headers failed_to_fetch).
Proof.
  apply (stale_marker_never_sent_alone codeCompare (Some "beginner")
           (Settles 120 Rejected) 43200001 (NodeCache.set "beginner" [] 0 ∅)).
  vm_compute. auto.
Defined.


